(** * rsb: rule registry, configuration binder and matchers

    A shallow embedding of the rule engine of the Reddit search bot [rsb]:
    the rule registry ([rule] package), the [RamUnderPrice] rule, the
    configuration binder [getRules] and the two matchers ([matchPosts] and
    [Heuristic.appliedTo]).

    Go strings are byte strings.  Every pattern the program compiles consumes
    ASCII bytes only, and a UTF-8 encoded rune outside ASCII is made of bytes
    above 127, so matching byte by byte agrees with Go's rune by rune
    matching on these patterns. *)

From Stdlib Require Import ZArith Ascii Lia.
From stdpp Require Import base option list gmap strings pretty.

Set Default Proof Using "Type".
Local Open Scope Z_scope.

(** ** Errors, panics and results *)

(** Go [error] values the modelled code builds or receives. *)
Inductive error :=
| errorString (msg : string)              (* errors.New, fmt.Errorf *)
| NumError (fn num why : string)          (* strconv.NumError *)
| UnmarshalTypeError (value field : string)
| SyntaxError (msg : string).             (* json.SyntaxError *)

(** What a panicking goroutine carries. *)
Inductive panic_value :=
| LogPanic (e : error)                    (* log.Panic(err) *)
| RuntimeError (msg : string).            (* index out of range, nil dereference *)

(** A call either returns or panics. *)
Inductive result (A : Type) :=
| Ret (a : A)
| Panic (v : panic_value).
Arguments Ret {A} a.
Arguments Panic {A} v.

#[global] Instance result_ret : MRet result := fun _ a => Ret a.
#[global] Instance result_fmap : FMap result := fun _ _ f m =>
  match m with
  | Ret a => Ret (f a)
  | Panic v => Panic v
  end.
#[global] Instance result_bind : MBind result := fun _ _ f m =>
  match m with
  | Ret a => f a
  | Panic v => Panic v
  end.

(** [l[i]] on a slice: a run-time panic when out of range. *)
Definition index {A} (l : list A) (i : nat) : result A :=
  match l !! i with
  | Some a => Ret a
  | None => Panic (RuntimeError "index out of range")
  end.

(** ** The part of package [regexp] the program uses *)

Module regexp.

(** What one instruction of a pattern consumes. *)
Inductive class :=
| Byte (c : ascii)      (* an escaped literal: \$ \. *)
| Fold (c : ascii)      (* a letter under (?i) *)
| Digit.                (* \d *)

Inductive inst :=
| One (c : class)       (* c  *)
| Plus (c : class)      (* c+ greedy *)
| Star (c : class)      (* c* greedy *)
| BeginText             (* ^  (no multi-line flag) *)
| EndText               (* $  (no multi-line flag) *)
| WordBoundary.         (* \b (ASCII) *)

(** A pattern is the concatenation of its instructions. *)
Definition Regexp := list inst.

Definition is_digit (x : ascii) : bool :=
  (Ascii.leb "0" x && Ascii.leb x "9")%char.

Definition is_upper (x : ascii) : bool :=
  (Ascii.leb "A" x && Ascii.leb x "Z")%char.

Definition is_lower (x : ascii) : bool :=
  (Ascii.leb "a" x && Ascii.leb x "z")%char.

Definition to_lower (x : ascii) : ascii :=
  if is_upper x then ascii_of_nat (nat_of_ascii x + 32) else x.

(** [\w] of the ASCII word boundary. *)
Definition is_word (x : ascii) : bool :=
  is_digit x || is_upper x || is_lower x || Ascii.eqb x "_".

Definition is_word_opt (x : option ascii) : bool :=
  match x with
  | Some c => is_word c
  | None => false
  end.

Definition class_match (c : class) (x : ascii) : bool :=
  match c with
  | Byte b => Ascii.eqb x b
  | Fold b => Ascii.eqb (to_lower x) (to_lower b)
  | Digit => is_digit x
  end.

(** Greedy repetition of a class, then the continuation [k]; on failure of
    the continuation one repetition is given back. *)
Fixpoint many (c : class) (k : option ascii → list ascii → option nat)
    (prev : option ascii) (s : list ascii) : option nat :=
  match s with
  | x :: s' =>
      if class_match c x then
        match many c k (Some x) s' with
        | Some n => Some (S n)
        | None => k prev s
        end
      else k prev s
  | [] => k prev s
  end.

(** The length of the match of [re] that starts here, as a backtracking
    matcher prefers it (leftmost-first); [prev] is the byte before the
    current position, [None] at the beginning of the text. *)
Fixpoint match_here (re : Regexp) : option ascii → list ascii → option nat :=
  match re with
  | [] => fun _ _ => Some 0%nat
  | i :: re' =>
      let k := match_here re' in
      match i with
      | One c => fun _ s =>
          match s with
          | x :: s' => if class_match c x then S <$> k (Some x) s' else None
          | [] => None
          end
      | Plus c => fun _ s =>
          match s with
          | x :: s' => if class_match c x then S <$> many c k (Some x) s' else None
          | [] => None
          end
      | Star c => many c k
      | BeginText => fun prev s =>
          match prev with
          | None => k prev s
          | Some _ => None
          end
      | EndText => fun prev s =>
          match s with
          | [] => k prev s
          | _ :: _ => None
          end
      | WordBoundary => fun prev s =>
          if xorb (is_word_opt prev) (is_word_opt (head s)) then k prev s else None
      end
  end.

(** The leftmost match that starts at [pos] or later: [(start, end)]. *)
Fixpoint search (re : Regexp) (prev : option ascii) (rest : list ascii)
    (pos : nat) : option (nat * nat) :=
  match match_here re prev rest with
  | Some n => Some (pos, (pos + n)%nat)
  | None =>
      match rest with
      | [] => None
      | x :: rest' => search re (Some x) rest' (S pos)
      end
  end.

Definition prev_at (s : list ascii) (pos : nat) : option ascii :=
  match pos with
  | O => None
  | S p => s !! p
  end.

(** [re.doExecute(nil, nil, s, pos, ...)]: the match is looked for in the
    whole text [s], from [pos] on. *)
Definition doExecute (re : Regexp) (s : list ascii) (pos : nat) : option (nat * nat) :=
  search re (prev_at s pos) (drop pos s) pos.

(** The loop of [re.allMatches]; [k] is [n - i], the matches still allowed.
    After an empty match the position moves by one character. *)
Fixpoint allMatches (re : Regexp) (s : list ascii) (k : nat) (pos : nat)
    (prevMatchEnd : Z) : list (nat * nat) :=
  match k with
  | O => []
  | S k' =>
      if (pos <=? length s)%nat then
        match doExecute re s pos with
        | None => []
        | Some (m0, m1) =>
            let accept := negb ((m1 =? pos)%nat && (Z.of_nat m0 =? prevMatchEnd)) in
            let pos' :=
              if (m1 =? pos)%nat
              then (if (pos <? length s)%nat then pos + 1 else length s + 1)%nat
              else m1 in
            (if accept then [(m0, m1)] else []) ++ allMatches re s k' pos' (Z.of_nat m1)
        end
      else []
  end.

Definition slice (s : list ascii) (m : nat * nat) : string :=
  String.string_of_list_ascii (take (m.2 - m.1) (drop m.1 s)).

(** [re.FindStringIndex(s)]: [None] is the nil slice. *)
Definition FindStringIndex (re : Regexp) (s : string) : option (nat * nat) :=
  doExecute re (String.list_ascii_of_string s) 0.

(** [re.FindAllString(s, n)]: all successive matches when [n < 0]. *)
Definition FindAllString (re : Regexp) (s : string) (n : Z) : list string :=
  let t := String.list_ascii_of_string s in
  let n := if n <? 0 then (length t + 1)%nat else Z.to_nat n in
  slice t <$> allMatches re t n 0 (-1).

End regexp.

(** ** The part of package [strconv] the program uses *)

Module strconv.

Definition intSize : Z := 64.
Definition maxInt : Z := 2 ^ (intSize - 1) - 1.
Definition minInt : Z := - 2 ^ (intSize - 1).

Definition ErrSyntax : string := "invalid syntax".
Definition ErrRange : string := "value out of range".

Fixpoint digits (acc : Z) (s : list ascii) : option Z :=
  match s with
  | [] => Some acc
  | c :: s' =>
      if regexp.is_digit c
      then digits (acc * 10 + (Z.of_nat (nat_of_ascii c) - 48)) s'
      else None
  end.

(** [strconv.Atoi]: an optional sign and decimal digits; the value and an
    error, as Go returns them. *)
Definition Atoi (s : string) : Z * option error :=
  let l := String.list_ascii_of_string s in
  let '(neg, ds) :=
    match l with
    | "-"%char :: t => (true, t)
    | "+"%char :: t => (false, t)
    | _ => (false, l)
    end in
  match ds with
  | [] => (0, Some (NumError "Atoi" s ErrSyntax))
  | _ :: _ =>
      match digits 0 ds with
      | None => (0, Some (NumError "Atoi" s ErrSyntax))
      | Some v =>
          let v := if neg then - v else v in
          if v >? maxInt then (maxInt, Some (NumError "Atoi" s ErrRange))
          else if v <? minInt then (minInt, Some (NumError "Atoi" s ErrRange))
          else (v, None)
      end
  end.

(** [strconv.Itoa]: the decimal form of [i]. *)
Definition Itoa (i : Z) : string := pretty i.

End strconv.

(** ** The part of package [strings] the program uses *)

Module gostrings.

(** [strings.Join(elems, sep)] *)
Fixpoint Join (elems : list string) (sep : string) : string :=
  match elems with
  | [] => EmptyString
  | [e] => e
  | e :: elems' => e +:+ sep +:+ Join elems' sep
  end.

End gostrings.

(** ** The part of package [encoding/json] the program uses *)

Module json.

#[local] Set Warnings "-register-all".

(** A JSON text.  A number literal is kept apart by whether it is written
    as an integer ([Int]) or with a fraction or an exponent ([Real]). *)
Inductive value :=
| Null
| Bool (b : bool)
| Int (z : Z)
| Real (lit : string)
| Str (s : string)
| Array (l : list value)
| Object (members : list (string * value)).

(** The content of a [[]byte] handed to [Unmarshal]: a JSON text, or bytes
    that are none. *)
Inductive data :=
| Text (v : value)
| Garbage.

(** [map[string]interface{}] as decoded from a JSON object: its entries, in
    the key order in which [Marshal] writes them. *)
Definition object_map := list (string * value).

(** [json.Marshal] of such a map; these values always encode. *)
Definition Marshal (m : object_map) : data * option error :=
  (Text (Object m), None).

Definition kind (v : value) : string :=
  match v with
  | Null => "null"
  | Bool _ => "bool"
  | Int _ | Real _ => "number"
  | Str _ => "string"
  | Array _ => "array"
  | Object _ => "object"
  end.

(** Keys are matched with a field's name without regard to case. *)
Definition fold_name (s : string) : list ascii :=
  regexp.to_lower <$> String.list_ascii_of_string s.

Definition key_matches (field key : string) : bool :=
  bool_decide (fold_name key = fold_name field).

(** The decoder keeps the first error and goes on. *)
Definition saveError (saved : option error) (e : error) : option error :=
  match saved with
  | Some e0 => Some e0
  | None => Some e
  end.

(** One member of an object, decoded into the [int] field named [field]. *)
Definition decode_member (field : string) (st : Z * option error)
    (kv : string * value) : Z * option error :=
  let '(cur, saved) := st in
  let '(key, v) := kv in
  if key_matches field key then
    match v with
    | Null => (cur, saved)
    | Int z =>
        if (strconv.minInt <=? z) && (z <=? strconv.maxInt)
        then (z, saved)
        else (cur, saveError saved (UnmarshalTypeError "number" field))
    | _ => (cur, saveError saved (UnmarshalTypeError (kind v) field))
    end
  else (cur, saved).

(** [json.Unmarshal(data, p)] where [p] points to a struct whose only
    field is an [int] tagged [field]: the field's new value and the error. *)
Definition Unmarshal (field : string) (d : data) (cur : Z) : Z * option error :=
  match d with
  | Garbage => (cur, Some (SyntaxError "invalid character"))
  | Text Null => (cur, None)
  | Text (Object members) => foldl (decode_member field) (cur, None) members
  | Text v => (cur, Some (UnmarshalTypeError (kind v) ""))
  end.

End json.

(** ** Posts *)

Module reddit.

(** [reddit.Post], with the fields the program reads. *)
Record Post := {
  ID : string;
  Title : string;
  Author : string;
  URL : string;
  Stickied : bool;
}.

End reddit.

(** ** Package [rule]: the rule interface and the registry *)

Module rule.

(** The method set of [Rule], for a concrete type [T].  [RegisterConfigs]
    has a pointer receiver: it returns the receiver's new value with the
    error. *)
Class Methods (T : Type) := {
  Name : T → string;
  RegisterConfigs : T → json.data → T * option error;
  Match : T → reddit.Post → result bool;
}.

(** A rule instance in memory: a value of some concrete type with its
    methods. *)
Record object := Obj {
  obj_type : Type;
  obj_methods : Methods obj_type;
  obj_value : obj_type;
}.
Arguments Obj {obj_type obj_methods} obj_value.

Definition loc := nat.

(** A [Rule] interface value: a pointer to an instance, or nil. *)
Definition Rule := option loc.

(** [type RuleRegistry map[string]Rule] *)
Abbreviation RuleRegistry := (gmap string Rule).

(** The memory the rule instances live in, and the package variable
    [ruleRegistry]. *)
Record state := State {
  heap : list object;
  ruleRegistry : RuleRegistry;
}.

(** Code that reads and writes the state, and may panic. *)
Definition M (A : Type) : Type := state → result (A * state).

#[global] Typeclasses Opaque M.
#[global] Instance M_ret : MRet M := fun _ a σ => Ret (a, σ).
#[global] Instance M_bind : MBind M := fun _ _ f m σ =>
  match m σ with
  | Ret (a, σ') => f a σ'
  | Panic v => Panic v
  end.

Definition nil_dereference {A} : result A :=
  Panic (RuntimeError "invalid memory address or nil pointer dereference").

Definition deref (r : Rule) (σ : state) : option object :=
  l ← r; heap σ !! l.

(** [r.Name()] *)
Definition call_Name (r : Rule) : M string := fun σ =>
  match deref r σ with
  | Some o => Ret (@Name _ (obj_methods o) (obj_value o), σ)
  | None => nil_dereference
  end.

(** [r.RegisterConfigs(configs)]: the instance is updated in place. *)
Definition call_RegisterConfigs (r : Rule) (configs : json.data) : M (option error) :=
  fun σ =>
  match r with
  | Some l =>
      match heap σ !! l with
      | Some o =>
          let '(v, err) := @RegisterConfigs _ (obj_methods o) (obj_value o) configs in
          Ret (err, State (<[l := @Obj _ (obj_methods o) v]> (heap σ)) (ruleRegistry σ))
      | None => nil_dereference
      end
  | None => nil_dereference
  end.

(** [r.Match(post)] *)
Definition call_Match (r : Rule) (post : reddit.Post) : M bool := fun σ =>
  match deref r σ with
  | Some o => b ← @Match _ (obj_methods o) (obj_value o) post; Ret (b, σ)
  | None => nil_dereference
  end.

(** [new(T)] with an initial value. *)
Definition alloc (o : object) : M Rule := fun σ =>
  let l := length (heap σ) in
  Ret (Some l, State (heap σ ++ [o]) (ruleRegistry σ)).

(** The package's [init]: [ruleRegistry = make(RuleRegistry)]. *)
Definition init : state := State [] ∅.

(** [ruleRegistry[name] = r] *)
Definition store (name : string) (r : Rule) : M unit := fun σ =>
  Ret ((), State (heap σ) (<[name := r]> (ruleRegistry σ))).

Definition RegisterRule (r : Rule) : M unit :=
  name ← call_Name r;
  store name r.

Definition RuleInRuleRegistry (ruleName : string) : M (Rule * option error) :=
  fun σ =>
  match ruleRegistry σ !! ruleName with
  | Some rule => Ret ((rule, None), σ)
  | None =>
      Ret ((None, Some (errorString ("the following rule is not known: " +:+ ruleName))), σ)
  end.

(** The loop of [GetRegisteredRules], from the rules found so far. *)
Fixpoint GetRegisteredRules_from (ruleNames : list string) (rulesFound : list Rule)
    : M (list Rule * option error) :=
  match ruleNames with
  | [] => mret (rulesFound, None)
  | ruleName :: ruleNames' =>
      '(rule, err) ← RuleInRuleRegistry ruleName;
      match err with
      | None => GetRegisteredRules_from ruleNames' (rulesFound ++ [rule])
      | Some e => mret (rulesFound, Some e)
      end
  end.

Definition GetRegisteredRules (ruleNames : list string) : M (list Rule * option error) :=
  GetRegisteredRules_from ruleNames [].

End rule.

(** ** rule/ramunderprice *)

Module ramunderprice.
Import regexp.

Definition defaultPrice : Z := 0.

(** [(?i)\bRAM\b] *)
Definition reRamInTitle : Regexp :=
  [WordBoundary; One (Fold "R"); One (Fold "A"); One (Fold "M"); WordBoundary].

(** [^\$\d+\.*\d*$] *)
Definition reCostInTitle : Regexp :=
  [BeginText; One (Byte "$"); Plus Digit; Star (Byte "."); Star Digit; EndText].

(** [\d+$], compiled inside [Match]. *)
Definition reDigitsAtEnd : Regexp := [Plus Digit; EndText].

(** [type RamUnderPrice struct { Price int `json:"price"` }] *)
Record RamUnderPrice := { Price : Z }.

Definition Name (r : RamUnderPrice) : string := "ramunderprice".

Definition RegisterConfigs (r : RamUnderPrice) (configs : json.data)
    : RamUnderPrice * option error :=
  let '(price, err) := json.Unmarshal "price" configs (Price r) in
  ({| Price := price |}, err).

(** [Match] from the point where [costs] is known: the test on the number
    of costs found and the comparison with the ceiling. *)
Definition matchCosts (r : RamUnderPrice) (costs : list string) : result bool :=
  if negb (length costs =? 1)%nat then Ret false
  else
    c0 ← index costs 0;
    tok ← index (FindAllString reDigitsAtEnd c0 (-1)) 0;
    let '(cost, err) := strconv.Atoi tok in
    match err with
    | Some e => Panic (LogPanic e)
    | None => if cost >? Price r then Ret false else Ret true
    end.

Definition Match (r : RamUnderPrice) (post : reddit.Post) : result bool :=
  match FindStringIndex reRamInTitle (reddit.Title post) with
  | None => Ret false
  | Some _ =>
      let allSubStrings := -1 in
      let costs := FindAllString reCostInTitle (reddit.Title post) allSubStrings in
      matchCosts r costs
  end.

#[global] Instance methods : rule.Methods RamUnderPrice := {|
  rule.Name := Name;
  rule.RegisterConfigs := RegisterConfigs;
  rule.Match := Match;
|}.

(** The package's [init]: a new instance with the default price is
    registered. *)
Definition init : rule.M unit :=
  ramUnderPrice ← rule.alloc (rule.Obj {| Price := defaultPrice |});
  rule.RegisterRule ramUnderPrice.

End ramunderprice.

(** ** The main program: the binder and the per-rule matcher *)

Module main.
Import rule.

Record RuleConfig := {
  ID : string;
  Configs : json.object_map;
}.

(** The loop of [getRules], from the rules gathered so far. *)
Fixpoint getRules_from (rcs : list RuleConfig) (rules : list Rule)
    : M (list Rule * option error) :=
  match rcs with
  | [] => mret (rules, None)
  | rc :: rcs' =>
      if (0 <? length (Configs rc))%nat then
        let '(configsData, err) := json.Marshal (Configs rc) in
        match err with
        | Some e => mret (rules, Some e)
        | None =>
            '(rule, err) ← RuleInRuleRegistry (ID rc);
            match err with
            | Some e => mret (rules, Some e)
            | None =>
                err ← call_RegisterConfigs rule configsData;
                match err with
                | Some e => mret (rules, Some e)
                | None => getRules_from rcs' (rules ++ [rule])
                end
            end
        end
      else
        '(rule, err) ← RuleInRuleRegistry (ID rc);
        match err with
        | Some e => mret (rules, Some e)
        | None => getRules_from rcs' (rules ++ [rule])
        end
  end.

Definition getRules (rcs : list RuleConfig) : M (list Rule * option error) :=
  getRules_from rcs [].

(** The inner loop of [matchPosts]: every rule on one post. *)
Fixpoint matchPosts_rules (rules : list Rule) (post : reddit.Post)
    (matches : gmap string reddit.Post) : M (gmap string reddit.Post) :=
  match rules with
  | [] => mret matches
  | rule :: rules' =>
      b ← call_Match rule post;
      if b : bool then
        name ← call_Name rule;
        matchPosts_rules rules' post (<[name := post]> matches)
      else matchPosts_rules rules' post matches
  end.

(** The outer loop of [matchPosts]. *)
Fixpoint matchPosts_from (rules : list Rule) (posts : list reddit.Post)
    (matches : gmap string reddit.Post) : M (gmap string reddit.Post) :=
  match posts with
  | [] => mret matches
  | post :: posts' =>
      matches' ← matchPosts_rules rules post matches;
      matchPosts_from rules posts' matches'
  end.

Definition matchPosts (rules : list Rule) (posts : list reddit.Post)
    : M (gmap string reddit.Post) :=
  matchPosts_from rules posts ∅.

(** [stringInArr]: the loop returns at the first equal element. *)
Fixpoint stringInArr (strArg : string) (arr : list string) : bool :=
  match arr with
  | [] => false
  | val :: arr' => if String.eqb val strArg then true else stringInArr strArg arr'
  end.

(** [progConfigs]: what the command line set. *)
Record progConfigs := {
  agentPath : string;
  altConfigPath : string;
  exportConfig : bool;
  helpFlagPassedIn : bool;
  showConfigPath : bool;
  subredditName : string;
}.

Definition set_helpFlagPassedIn (pconfs : progConfigs) (b : bool) : progConfigs :=
  {| agentPath := agentPath pconfs; altConfigPath := altConfigPath pconfs;
     exportConfig := exportConfig pconfs; helpFlagPassedIn := b;
     showConfigPath := showConfigPath pconfs; subredditName := subredditName pconfs |}.

(** The first loop of [parseCmdArgs], from index [i] of [os.Args] on:
    [continue] on the program's name, [break] on "--". *)
Fixpoint parseCmdArgs_scan (i : nat) (localOsArgs : list string)
    (pconfs : progConfigs) : progConfigs :=
  match localOsArgs with
  | [] => pconfs
  | val :: args' =>
      if (i <? 1)%nat then parseCmdArgs_scan (S i) args' pconfs
      else if String.eqb val "--" then pconfs
      else if stringInArr val ["-h"; "-help"; "--help"]%string
      then parseCmdArgs_scan (S i) args' (set_helpFlagPassedIn pconfs true)
      else parseCmdArgs_scan (S i) args' pconfs
  end.

Definition progName : string := "rsb".
Definition defaultPostThreshold : Z := 5.
Definition errfoundPost : error := errorString "found a reddit post".

(** [postGather], without the handle of the bot. *)
Record postGather := {
  postQueue : list reddit.Post;
  postThreshold : Z;
  stickyPostQueue : gmap string string;
}.

Definition flushPostQueue (g : postGather) : postGather :=
  {| postQueue := []; postThreshold := postThreshold g;
     stickyPostQueue := stickyPostQueue g |}.

Definition getPostQueue (g : postGather) : list reddit.Post := postQueue g.

Definition atPostThreshold (g : postGather) : bool :=
  Z.of_nat (length (postQueue g)) >=? postThreshold g.

(** [g.Post(p)]: the handler after the call, and the error returned. *)
Definition Post (g : postGather) (p : reddit.Post) : postGather * error :=
  let ok := bool_decide (is_Some (stickyPostQueue g !! reddit.ID p)) in
  let g' :=
    if negb (reddit.Stickied p) || negb ok
    then {| postQueue := postQueue g ++ [p]; postThreshold := postThreshold g;
            stickyPostQueue := stickyPostQueue g |}
    else g in
  (g', errfoundPost).

(** The handler as [main] builds it: no sticky post is known. *)
Definition handler0 : postGather :=
  {| postQueue := []; postThreshold := defaultPostThreshold; stickyPostQueue := ∅ |}.

(** [postUrls]: the posts of the queue, numbered from 1. *)
Fixpoint postUrls_from (i : nat) (postQueue : list reddit.Post)
    (postUrls : list string) : list string :=
  match postQueue with
  | [] => postUrls
  | post :: postQueue' =>
      postUrls_from (S i) postQueue'
        (postUrls ++ [strconv.Itoa (Z.of_nat i + 1) +:+ ". " +:+ reddit.URL post])
  end.

(** [matchUrls]: the matches in the order in which the map is ranged
    over, numbered by [matchCounter]. *)
Fixpoint matchUrls_from (matchCounter : Z) (ranged : list (string * reddit.Post))
    (matchUrls : list string) : list string :=
  match ranged with
  | [] => matchUrls
  | (ruleId, post) :: ranged' =>
      matchUrls_from (matchCounter + 1) ranged'
        (matchUrls ++ [strconv.Itoa matchCounter +:+ "(" +:+ ruleId +:+ "). "
                         +:+ reddit.URL post])
  end.

Definition quote : string := String (ascii_of_nat 34) EmptyString.
Definition CRLF : string :=
  String (ascii_of_nat 13) (String (ascii_of_nat 10) EmptyString).

(** The body of [main]'s loop once a run of the bot has returned: when
    the threshold is met, the message handed to [smtp.SendMail] and the
    handler.  [range] is the order in which Go ranges over the map, which
    the language leaves open. *)
Definition report (range : gmap string reddit.Post → list (string * reddit.Post))
    (SendMailTo subreddit : string) (rules : list Rule) (handler : postGather)
    : M (option string * postGather) :=
  if atPostThreshold handler then
    let postQueue := getPostQueue handler in
    let handler := flushPostQueue handler in
    let postUrls := postUrls_from 0 postQueue [] in
    let msgStr :=
      gostrings.Join
        (["To: " +:+ SendMailTo;
          "Subject: " +:+ progName +:+ " Report: " +:+ quote +:+ subreddit +:+ quote;
          EmptyString;
          "Posts:"%string] ++ postUrls)
        CRLF in
    matches ← matchPosts rules (getPostQueue handler);
    let matchUrls := matchUrls_from 1 (range matches) [] in
    let msg := msgStr +:+ gostrings.Join (["Matches:"%string] ++ matchUrls) CRLF in
    mret (Some msg, handler)
  else mret (None, handler).

End main.

(** ** Package [heuristic]: the per-post matcher *)

Module heuristic.
Import rule.

Record Heuristic := { rules : list Rule }.

(** The inner loop of [appliedTo]: every rule is called, also after one
    has failed. *)
Fixpoint postPasses_from (rules : list Rule) (post : reddit.Post)
    (postPasses : bool) : M bool :=
  match rules with
  | [] => mret postPasses
  | rule :: rules' =>
      b ← call_Match rule post;
      postPasses_from rules' post (if negb b then false else postPasses)
  end.

(** [h.appliedTo(posts, matches)]: the new content of [*matches]. *)
Fixpoint appliedTo (h : Heuristic) (posts : list reddit.Post)
    (matches : list reddit.Post) : M (list reddit.Post) :=
  match posts with
  | [] => mret matches
  | post :: posts' =>
      postPasses ← postPasses_from (rules h) post true;
      if postPasses : bool
      then appliedTo h posts' (matches ++ [post])
      else appliedTo h posts' matches
  end.

End heuristic.

(** ** Earlier revisions kept in the repository *)

(** The revision of package [rule] and of [getRules] whose results go
    through pointers the caller passes. *)
Module out_params.
Import rule.

(** [GetRegisteredRules(ruleNames, rulesFound)]: the new content of
    [*rulesFound] and the error. *)
Fixpoint GetRegisteredRules (ruleNames : list string) (rulesFound : list Rule)
    : M (list Rule * option error) :=
  match ruleNames with
  | [] => mret (rulesFound, None)
  | ruleName :: ruleNames' =>
      '(rule, err) ← RuleInRuleRegistry ruleName;
      match err with
      | None => GetRegisteredRules ruleNames' (rulesFound ++ [rule])
      | Some e => mret (rulesFound, Some e)
      end
  end.

(** [getRules(rcs, rules)]: the new content of [*rules] and the error. *)
Fixpoint getRules (rcs : list main.RuleConfig) (rules : list Rule)
    : M (list Rule * option error) :=
  match rcs with
  | [] => mret (rules, None)
  | rc :: rcs' =>
      if (0 <? length (main.Configs rc))%nat then
        let '(configsData, err) := json.Marshal (main.Configs rc) in
        match err with
        | Some e => mret (rules, Some e)
        | None =>
            '(rule, err) ← RuleInRuleRegistry (main.ID rc);
            match err with
            | Some e => mret (rules, Some e)
            | None =>
                err ← call_RegisterConfigs rule configsData;
                match err with
                | Some e => mret (rules, Some e)
                | None => getRules rcs' (rules ++ [rule])
                end
            end
        end
      else
        '(rule, err) ← RuleInRuleRegistry (main.ID rc);
        match err with
        | Some e => mret (rules, Some e)
        | None => getRules rcs' (rules ++ [rule])
        end
  end.

End out_params.

(** The rule with the ceiling written into it, [RamUnder100]. *)
Module ramunder100.
Import regexp.

Definition reRamInTitle : Regexp := ramunderprice.reRamInTitle.
Definition reCostInTitle : Regexp := ramunderprice.reCostInTitle.

Definition Match (post : reddit.Post) : result bool :=
  match FindStringIndex reRamInTitle (reddit.Title post) with
  | None => Ret false
  | Some _ =>
      let allSubStrings := -1 in
      let costs := FindAllString reCostInTitle (reddit.Title post) allSubStrings in
      if negb (length costs =? 1)%nat then Ret false
      else
        c0 ← index costs 0;
        tok ← index (FindAllString ramunderprice.reDigitsAtEnd c0 (-1)) 0;
        let '(cost, err) := strconv.Atoi tok in
        match err with
        | Some e => Panic (LogPanic e)
        | None => if cost >? 100 then Ret false else Ret true
        end
  end.

End ramunder100.

(** ** Sample data *)

Module samples.
Import rule.

Definition post (id title : string) : reddit.Post :=
  {| reddit.ID := id; reddit.Title := title; reddit.Author := "";
     reddit.URL := ""; reddit.Stickied := false |}.

Definition P1 : reddit.Post := post "p1" "32GB RAM $99.99".
Definition P2 : reddit.Post := post "p2" "$50".

(** A test rule: a name and the posts it matches. *)
Record fixed := { fixed_name : string; fixed_match : reddit.Post → bool }.

#[global] Instance fixed_methods : Methods fixed := {|
  Name r := fixed_name r;
  RegisterConfigs r _ := (r, None);
  Match r p := Ret (fixed_match r p);
|}.

Definition R1 : fixed :=
  {| fixed_name := "R1"; fixed_match := λ _, true |}.
Definition R2 : fixed :=
  {| fixed_name := "R2"; fixed_match := λ p, String.eqb (reddit.ID p) "p2" |}.

(** Two instances, [R1] at 0 and [R2] at 1. *)
Definition two_rules : state := State [Obj R1; Obj R2] ∅.

(** Two instances that share the name "x": the first matches no post,
    the second every post. *)
Definition same_name : state :=
  State [Obj {| fixed_name := "x"; fixed_match := λ _, false |};
         Obj {| fixed_name := "x"; fixed_match := λ _, true |}] ∅.

(** The state once [ramunderprice.init] has run. *)
Definition registered : state :=
  State [Obj {| ramunderprice.Price := ramunderprice.defaultPrice |}]
        {[ "ramunderprice"%string := Some 0%nat ]}.

(** A configuration that sets the ceiling, then names a rule nobody
    registered. *)
Definition configs : list main.RuleConfig :=
  [ {| main.ID := "ramunderprice"; main.Configs := [("price"%string, json.Int 100)] |};
    {| main.ID := "nosuch"; main.Configs := [] |} ].

End samples.

(** Every registered rule is an instance in memory. *)
Definition registry_live (σ : rule.state) : Prop :=
  ∀ name r, rule.ruleRegistry σ !! name = Some r → is_Some (rule.deref r σ).

(** [r] resolves the name [n] in the registry of [σ]. *)
Definition resolves (σ : rule.state) (n : string) (r : rule.Rule) : Prop :=
  rule.ruleRegistry σ !! n = Some r.

Definition not_known (ruleName : string) : error :=
  errorString ("the following rule is not known: " +:+ ruleName).

(** What binding a list of entries without error is, entry by entry: the
    ID resolves in the registry; an entry without configs leaves the state
    as it is; the configs of an entry that has some are applied, by the
    instance's own [RegisterConfigs] and without error, to the instance the
    ID resolves to, which is replaced in memory by the configured one; the
    next entry is bound in the state so reached. *)
Inductive binds : rule.state → list main.RuleConfig → list rule.Rule → rule.state → Prop :=
| binds_nil σ :
    binds σ [] [] σ
| binds_plain σ rc rcs r rules σ' :
    rule.ruleRegistry σ !! main.ID rc = Some r →
    main.Configs rc = [] →
    binds σ rcs rules σ' →
    binds σ (rc :: rcs) (r :: rules) σ'
| binds_configured σ rc rcs l o v rules σ' :
    rule.ruleRegistry σ !! main.ID rc = Some (Some l) →
    main.Configs rc ≠ [] →
    rule.heap σ !! l = Some o →
    @rule.RegisterConfigs _ (rule.obj_methods o) (rule.obj_value o)
      (json.Text (json.Object (main.Configs rc))) = (v, None) →
    binds (rule.State (<[l := @rule.Obj _ (rule.obj_methods o) v]> (rule.heap σ))
                      (rule.ruleRegistry σ)) rcs rules σ' →
    binds σ (rc :: rcs) (Some l :: rules) σ'.

(** What the failure of one entry is, with the error [e] and the state it
    leaves: the ID is not registered and the state is as it was; or the
    instance's [RegisterConfigs] returns [e] on the configs, and the
    instance is replaced in memory by what that call made of it. *)
Definition entry_fails (σ : rule.state) (rc : main.RuleConfig) (e : error)
    (σ' : rule.state) : Prop :=
  (rule.ruleRegistry σ !! main.ID rc = None ∧
   e = errorString ("the following rule is not known: " +:+ main.ID rc) ∧
   σ' = σ) ∨
  (∃ l o v,
     rule.ruleRegistry σ !! main.ID rc = Some (Some l) ∧
     main.Configs rc ≠ [] ∧
     rule.heap σ !! l = Some o ∧
     @rule.RegisterConfigs _ (rule.obj_methods o) (rule.obj_value o)
       (json.Text (json.Object (main.Configs rc))) = (v, Some e) ∧
     σ' = rule.State (<[l := @rule.Obj _ (rule.obj_methods o) v]> (rule.heap σ))
                     (rule.ruleRegistry σ)).

(** The bytes a title matched by the cost pattern is made of. *)
Definition cost_byte (x : ascii) : bool :=
  Ascii.eqb x "$" || regexp.is_digit x || Ascii.eqb x ".".

(** * Properties *)

(** ** The patterns of [RamUnderPrice] *)

Section patterns.
Import regexp ramunderprice.

Lemma many_inv c k prev s n :
  many c k prev s = Some n →
  ∃ s1 s2 prev' n',
    s = s1 ++ s2 ∧ Forall (λ x, class_match c x = true) s1 ∧ k prev' s2 = Some n'.
Proof.
  revert prev n. induction s as [|x s IH]; intros prev n H; simpl in H.
  - exists [], [], prev, n. by split_and!.
  - destruct (class_match c x) eqn:Hx.
    + destruct (many c k (Some x) s) as [m|] eqn:Hm.
      * apply IH in Hm as (s1 & s2 & p' & n' & -> & Hs1 & Hk).
        exists (x :: s1), s2, p', n'. split_and!; [done| by constructor |done].
      * exists [], (x :: s), prev, n. by split_and!.
    + exists [], (x :: s), prev, n. by split_and!.
Qed.

Lemma class_cost_byte c x :
  c = Byte "$" ∨ c = Digit ∨ c = Byte "." →
  class_match c x = true → cost_byte x = true.
Proof.
  unfold cost_byte. intros [->|[->| ->]]; simpl; intros ->;
    by rewrite ?orb_true_r.
Qed.

(** A text the cost pattern matches is the whole text, made of [$], digits
    and dots only. *)
Lemma match_cost_bytes prev s n :
  match_here reCostInTitle prev s = Some n →
  prev = None ∧ Forall (λ x, cost_byte x = true) s.
Proof.
  simpl. destruct prev; [done|]. destruct s as [|x s]; [done|].
  destruct (Ascii.eqb x "$") eqn:Hx; [|done].
  destruct s as [|d s]; [done|].
  destruct (is_digit d) eqn:Hd; [|done].
  intros H. apply fmap_Some in H as (? & H & _). apply fmap_Some in H as (m & H & _).
  apply many_inv in H as (s1 & s2 & ? & ? & -> & Hs1 & H).
  apply many_inv in H as (s3 & s4 & ? & ? & -> & Hs3 & H).
  apply many_inv in H as (s5 & s6 & ? & ? & -> & Hs5 & H).
  destruct s6; [|done]. split; [done|].
  constructor; [by eapply (class_cost_byte (Byte "$")); eauto|].
  constructor; [by eapply (class_cost_byte Digit); eauto|].
  rewrite !Forall_app. split_and!; [| | |done].
  - eapply Forall_impl; [done|]. intros. eapply (class_cost_byte Digit); eauto.
  - eapply Forall_impl; [done|]. intros. eapply (class_cost_byte (Byte ".")); eauto.
  - eapply Forall_impl; [done|]. intros. eapply (class_cost_byte Digit); eauto.
Qed.

Lemma search_cost prev rest pos m :
  search reCostInTitle prev rest pos = Some m →
  prev = None ∧ Forall (λ x, cost_byte x = true) rest.
Proof.
  revert prev pos. induction rest as [|x rest IH]; intros prev pos.
  - cbn [search]. destruct (match_here _ _ _) eqn:H; [|done].
    intros _. by eapply match_cost_bytes.
  - cbn [search]. destruct (match_here _ _ _) eqn:H.
    + intros _. by eapply match_cost_bytes.
    + intros H'. by apply IH in H' as [? _].
Qed.

Lemma doExecute_cost s pos m :
  doExecute reCostInTitle s pos = Some m → Forall (λ x, cost_byte x = true) s.
Proof.
  unfold doExecute. destruct pos as [|p]; simpl.
  - rewrite drop_0. intros H. by apply search_cost in H as [_ ?].
  - intros H. pose proof H as [Hp _]%search_cost. rewrite Hp in H.
    apply lookup_ge_None in Hp.
    rewrite drop_ge in H by (simpl; lia). by vm_compute in H.
Qed.

Lemma allMatches_cost s k pos prevMatchEnd :
  allMatches reCostInTitle s k pos prevMatchEnd ≠ [] →
  Forall (λ x, cost_byte x = true) s.
Proof.
  revert pos prevMatchEnd. induction k as [|k IH]; intros pos pme; [done|].
  cbn [allMatches]. destruct (pos <=? length s)%nat; [|done].
  destruct (doExecute _ _ _) as [[m0 m1]|] eqn:H; [|done].
  intros _. by eapply doExecute_cost.
Qed.

Lemma cost_byte_not_R x :
  cost_byte x = true → class_match (Fold "R") x = false.
Proof.
  destruct x as [[] [] [] [] [] [] [] []]; vm_compute; congruence.
Qed.

Lemma match_ram_head prev s n :
  match_here reRamInTitle prev s = Some n →
  ∃ x s', s = x :: s' ∧ class_match (Fold "R") x = true.
Proof.
  cbn [match_here reRamInTitle].
  destruct (xorb _ _); [|done]. destruct s as [|x s]; [done|].
  destruct (class_match (Fold "R") x) eqn:Hx; [|done]. eauto.
Qed.

Lemma search_ram_none s :
  Forall (λ x, cost_byte x = true) s →
  ∀ prev pos, search reRamInTitle prev s pos = None.
Proof.
  induction 1 as [|x s Hx Hs IH]; intros prev pos; cbn [search].
  - destruct (match_here _ _ _) eqn:H; [|done].
    by apply match_ram_head in H as (? & ? & ? & ?).
  - destruct (match_here _ _ _) eqn:H; [|by apply IH].
    apply match_ram_head in H as (? & ? & [= <- <-] & H).
    by rewrite cost_byte_not_R in H.
Qed.

(** Whenever the word RAM is found, no cost is. *)
Lemma ram_found_no_cost title n :
  FindStringIndex reRamInTitle title ≠ None →
  FindAllString reCostInTitle title n = [].
Proof.
  intros Hram. unfold FindAllString.
  destruct (allMatches _ _ _ _ _) eqn:Hc; [done|].
  destruct Hram. unfold FindStringIndex, doExecute. simpl. rewrite drop_0.
  apply search_ram_none. eapply allMatches_cost. by rewrite Hc.
Qed.

End patterns.

(** ** [RamUnderPrice.Match] *)

Section ram_under_price.
Import regexp ramunderprice.

Lemma Match_false (r : RamUnderPrice) (post : reddit.Post) :
  Match r post = Ret false.
Proof.
  unfold Match. destruct (FindStringIndex _ _) eqn:Hram; [|done].
  rewrite ram_found_no_cost; [done|]. by rewrite Hram.
Qed.

(** C2: whatever the post and the ceiling, [Match] returns false: a title
    in which the cost pattern finds a match is made of [$], digits and dots
    only, and the word RAM is not found in such a title. *)
Theorem Match_always_false (r : RamUnderPrice) (post : reddit.Post) :
  Match r post = Ret false ∧
  (FindAllString reCostInTitle (reddit.Title post) (-1) ≠ [] →
   Forall (λ x, cost_byte x = true) (String.list_ascii_of_string (reddit.Title post)) ∧
   FindStringIndex reRamInTitle (reddit.Title post) = None).
Proof.
  split; [apply Match_false|]. intros Hcost.
  assert (Forall (λ x, cost_byte x = true)
            (String.list_ascii_of_string (reddit.Title post))) as Hbytes.
  { unfold FindAllString in Hcost. eapply allMatches_cost.
    intros E. by rewrite E in Hcost. }
  split; [done|]. unfold FindStringIndex, doExecute. simpl. rewrite drop_0.
  by apply search_ram_none.
Qed.

Lemma Match_always_false_witness :
  Match {| Price := 100 |} samples.P2 = Ret false ∧
  FindAllString reCostInTitle (reddit.Title samples.P2) (-1) = ["$50"%string] ∧
  FindStringIndex reRamInTitle (reddit.Title samples.P2) = None.
Proof.
  split_and!.
  - apply (proj1 (Match_always_false {| Price := 100 |} samples.P2)).
  - reflexivity.
  - apply (proj2 (Match_always_false {| Price := 100 |} samples.P2)). discriminate.
Defined.

(** C1: with ceiling 100 the title "32GB RAM $99.99" holds the word RAM,
    one dollar amount and a price under the ceiling, and [Match] returns
    false on it. *)
Theorem Match_32GB_RAM_false :
  FindStringIndex reRamInTitle "32GB RAM $99.99" = Some (5, 8)%nat ∧
  FindAllString reCostInTitle "32GB RAM $99.99" (-1) = [] ∧
  Match {| Price := 100 |} (samples.post "p1" "32GB RAM $99.99") = Ret false.
Proof. split_and!; vm_compute; reflexivity. Qed.

End ram_under_price.

Section ram_under_price_costs.
Import regexp ramunderprice.

Lemma RegisterConfigs_price (r : RamUnderPrice) (c : Z) :
  strconv.minInt ≤ c ≤ strconv.maxInt →
  RegisterConfigs r (json.Text (json.Object [("price"%string, json.Int c)]))
  = ({| Price := c |}, None).
Proof.
  intros [Hlo Hhi]. unfold RegisterConfigs, json.Unmarshal. cbn [foldl].
  unfold json.decode_member.
  replace (json.key_matches "price" "price") with true by (by vm_compute).
  apply Z.leb_le in Hlo, Hhi. by rewrite Hlo, Hhi.
Qed.

Lemma matchCosts_one (r : RamUnderPrice) (c : string) :
  matchCosts r [c] =
    match FindAllString reDigitsAtEnd c (-1) !! 0%nat with
    | Some tok =>
        match strconv.Atoi tok with
        | (_, Some e) => Panic (LogPanic e)
        | (cost, None) => if cost >? Price r then Ret false else Ret true
        end
    | None => Panic (RuntimeError "index out of range")
    end.
Proof.
  unfold matchCosts, index. change (length [c] =? 1)%nat with true.
  cbv beta iota delta [negb]. change ([c] !! 0%nat) with (Some c).
  unfold mbind, result_bind. by destruct (_ !! _).
Qed.

(** C8: a second [RegisterConfigs] replaces the ceiling the first one set
    (0, then 50, then 100), and no reconfiguration changes what [Match]
    returns, on any post. *)
Theorem RegisterConfigs_again_Match_unchanged :
  let r0 := {| Price := defaultPrice |} in
  let r1 := (RegisterConfigs r0 (json.Text (json.Object [("price"%string, json.Int 50)]))).1 in
  let r2 := (RegisterConfigs r1 (json.Text (json.Object [("price"%string, json.Int 100)]))).1 in
  Price r0 = 0 ∧ Price r1 = 50 ∧ Price r2 = 100 ∧
  ∀ (r : RamUnderPrice) (d : json.data) (post : reddit.Post),
    Match (RegisterConfigs r d).1 post = Match r post.
Proof.
  split_and!; [done| by vm_compute | by vm_compute |].
  intros r d post. by rewrite !Match_false.
Qed.

(** C10: no cost found gives false, more than one gives false, and exactly
    one is parsed and compared with the ceiling; [Match] hands the costs
    its pattern finds to this dispatch once the word RAM is found. *)
Theorem matchCosts_dispatch (r : RamUnderPrice) (costs : list string) :
  (length costs = 0%nat → matchCosts r costs = Ret false) ∧
  ((1 < length costs)%nat → matchCosts r costs = Ret false) ∧
  (∀ c tok cost,
     costs = [c] →
     FindAllString reDigitsAtEnd c (-1) !! 0%nat = Some tok →
     strconv.Atoi tok = (cost, None) →
     matchCosts r costs = Ret (bool_decide (cost ≤ Price r))) ∧
  (∀ post,
     Match r post =
       match FindStringIndex reRamInTitle (reddit.Title post) with
       | Some _ => matchCosts r (FindAllString reCostInTitle (reddit.Title post) (-1))
       | None => Ret false
       end).
Proof.
  split_and!.
  - intros H. unfold matchCosts. by rewrite H.
  - intros H. unfold matchCosts.
    destruct (Nat.eqb_spec (length costs) 1) as [E|E]; [lia|done].
  - intros c tok cost -> Htok Hcost. rewrite matchCosts_one, Htok, Hcost.
    destruct (Z.gtb_spec cost (Price r)); symmetry; f_equal.
    + apply bool_decide_eq_false. lia.
    + apply bool_decide_eq_true. lia.
  - intros post. unfold Match. by destruct (FindStringIndex _ _).
Qed.

Lemma matchCosts_dispatch_witness :
  matchCosts {| Price := 100 |} [] = Ret false ∧
  matchCosts {| Price := 100 |} ["$50"; "$70"]%string = Ret false ∧
  matchCosts {| Price := 100 |} ["$99.95"]%string = Ret true ∧
  matchCosts {| Price := 100 |} ["$150"]%string = Ret false.
Proof.
  split_and!.
  - apply (proj1 (matchCosts_dispatch {| Price := 100 |} [])). reflexivity.
  - apply (proj1 (proj2 (matchCosts_dispatch {| Price := 100 |} ["$50"; "$70"]%string))).
    simpl. lia.
  - apply (proj1 (proj2 (proj2 (matchCosts_dispatch {| Price := 100 |} ["$99.95"]%string)))
      "$99.95"%string "95"%string 95); reflexivity.
  - apply (proj1 (proj2 (proj2 (matchCosts_dispatch {| Price := 100 |} ["$150"]%string)))
      "$150"%string "150"%string 150); reflexivity.
Defined.



End ram_under_price_costs.

(** ** The registry *)

Section registry.
Import rule.

Lemma RuleInRuleRegistry_Some σ n r :
  resolves σ n r → RuleInRuleRegistry n σ = Ret ((r, None), σ).
Proof. unfold resolves, RuleInRuleRegistry. by intros ->. Qed.

Lemma RuleInRuleRegistry_None σ n :
  ruleRegistry σ !! n = None →
  RuleInRuleRegistry n σ = Ret ((None, Some (not_known n)), σ).
Proof. unfold RuleInRuleRegistry. by intros ->. Qed.

Lemma GetRegisteredRules_from_ok σ names rs acc :
  Forall2 (resolves σ) names rs →
  GetRegisteredRules_from names acc σ = Ret ((acc ++ rs, None), σ).
Proof.
  intros H. revert acc. induction H as [|n r names rs Hn _ IH]; intros acc.
  - by rewrite app_nil_r.
  - cbn [GetRegisteredRules_from]. unfold mbind, M_bind.
    rewrite (RuleInRuleRegistry_Some _ _ _ Hn), IH. by rewrite <- app_assoc.
Qed.

Lemma GetRegisteredRules_from_fail σ pre n post rs acc :
  Forall2 (resolves σ) pre rs →
  ruleRegistry σ !! n = None →
  GetRegisteredRules_from (pre ++ n :: post) acc σ
  = Ret ((acc ++ rs, Some (not_known n)), σ).
Proof.
  intros H Hn. revert acc. induction H as [|m r pre rs Hm _ IH]; intros acc.
  - cbn [app GetRegisteredRules_from]. unfold mbind, M_bind.
    rewrite (RuleInRuleRegistry_None _ _ Hn). by rewrite app_nil_r.
  - cbn [app GetRegisteredRules_from]. unfold mbind, M_bind.
    rewrite (RuleInRuleRegistry_Some _ _ _ Hm), IH. by rewrite <- app_assoc.
Qed.

(** Either every name resolves, or there is a first one that does not. *)
Lemma resolve_all_or_first σ (names : list string) :
  (∃ rs, Forall2 (resolves σ) names rs) ∨
  (∃ pre n post rs,
     names = pre ++ n :: post ∧ Forall2 (resolves σ) pre rs ∧
     ruleRegistry σ !! n = None).
Proof.
  induction names as [|n names IH].
  - left. exists []. constructor.
  - destruct (ruleRegistry σ !! n) as [r|] eqn:Hn.
    + destruct IH as [[rs H]|(pre & m & post & rs & -> & H & Hm)].
      * left. exists (r :: rs). by constructor.
      * right. exists (n :: pre), m, post, (r :: rs). split_and!; [done| |done].
        by constructor.
    + right. exists [], n, names, []. split_and!; [done|constructor|done].
Qed.

(** C6: bulk lookup resolves the names in order; when all resolve it
    returns their rules in that order and no error; otherwise it stops at
    the first name that is not registered and returns the rules found
    before it with an error that carries that name; one of the two cases
    always applies, and the state is left as it was. *)
Theorem GetRegisteredRules_spec (σ : state) (names : list string) :
  (∀ rs, Forall2 (resolves σ) names rs →
     GetRegisteredRules names σ = Ret ((rs, None), σ)) ∧
  (∀ pre n post rs,
     names = pre ++ n :: post → Forall2 (resolves σ) pre rs →
     ruleRegistry σ !! n = None →
     GetRegisteredRules names σ =
       Ret ((rs, Some (errorString ("the following rule is not known: " +:+ n))), σ)) ∧
  ((∃ rs, Forall2 (resolves σ) names rs) ∨
   (∃ pre n post rs,
      names = pre ++ n :: post ∧ Forall2 (resolves σ) pre rs ∧
      ruleRegistry σ !! n = None)).
Proof.
  split_and!.
  - intros rs H. unfold GetRegisteredRules. by rewrite (GetRegisteredRules_from_ok _ _ rs).
  - intros pre n post rs -> H Hn. unfold GetRegisteredRules.
    by rewrite (GetRegisteredRules_from_fail _ _ _ _ rs).
  - apply resolve_all_or_first.
Qed.

Lemma GetRegisteredRules_spec_witness :
  GetRegisteredRules ["ramunderprice"; "ramunderprice"]%string samples.registered
  = Ret (([Some 0%nat; Some 0%nat], None), samples.registered) ∧
  GetRegisteredRules ["ramunderprice"; "nosuch"; "ramunderprice"]%string samples.registered
  = Ret (([Some 0%nat], Some (errorString "the following rule is not known: nosuch")),
         samples.registered).
Proof.
  split.
  - apply (proj1 (GetRegisteredRules_spec samples.registered _)).
    repeat constructor.
  - apply (proj1 (proj2 (GetRegisteredRules_spec samples.registered _))
             ["ramunderprice"%string] "nosuch"%string ["ramunderprice"%string]);
      [reflexivity | repeat constructor | reflexivity].
Defined.

Lemma RegisterRule_run σ r n :
  call_Name r σ = Ret (n, σ) →
  RegisterRule r σ = Ret ((), State (heap σ) (<[n := r]> (ruleRegistry σ))).
Proof. intros H. unfold RegisterRule, mbind, M_bind. by rewrite H. Qed.

Lemma call_Name_heap σ σ' r :
  heap σ' = heap σ → call_Name r σ' = (λ x, (x.1, σ')) <$> call_Name r σ.
Proof.
  intros H. unfold call_Name, deref. rewrite H.
  by destruct (_ ≫= _).
Qed.

(** C7: once [r] is registered, looking up [r.Name()] returns [r] itself
    and no error; and of two rules of one name registered one after the
    other, the lookup returns the second. *)
Theorem RegisterRule_lookup (σ : state) (r1 r2 : Rule) (n : string) :
  call_Name r1 σ = Ret (n, σ) →
  call_Name r2 σ = Ret (n, σ) →
  (RegisterRule r1 ≫= λ _, RuleInRuleRegistry n) σ
  = Ret ((r1, None), State (heap σ) (<[n := r1]> (ruleRegistry σ))) ∧
  (RegisterRule r1 ≫= λ _, RegisterRule r2 ≫= λ _, RuleInRuleRegistry n) σ
  = Ret ((r2, None), State (heap σ) (<[n := r2]> (ruleRegistry σ))).
Proof.
  intros H1 H2. split.
  - unfold mbind at 1. unfold M_bind. rewrite (RegisterRule_run _ _ _ H1).
    apply RuleInRuleRegistry_Some. unfold resolves. simpl. apply lookup_insert_eq.
  - unfold mbind at 1. unfold M_bind. rewrite (RegisterRule_run _ _ _ H1).
    unfold mbind at 1. unfold M_bind.
    rewrite (RegisterRule_run _ _ n).
    + simpl. rewrite insert_insert_eq.
      apply RuleInRuleRegistry_Some. unfold resolves. simpl. apply lookup_insert_eq.
    + rewrite (call_Name_heap σ) by done. by rewrite H2.
Qed.

Lemma RegisterRule_lookup_witness :
  (RegisterRule (Some 0%nat) ≫= λ _, RuleInRuleRegistry "x") samples.same_name
  = Ret ((Some 0%nat, None),
         State (heap samples.same_name) (<["x"%string := Some 0%nat]> ∅)) ∧
  (RegisterRule (Some 0%nat) ≫= λ _, RegisterRule (Some 1%nat) ≫= λ _,
     RuleInRuleRegistry "x") samples.same_name
  = Ret ((Some 1%nat, None),
         State (heap samples.same_name) (<["x"%string := Some 1%nat]> ∅)).
Proof.
  apply (RegisterRule_lookup samples.same_name (Some 0%nat) (Some 1%nat) "x");
    reflexivity.
Defined.

(** The package initialisers leave one live [RamUnderPrice] registered. *)
Lemma init_registered :
  ramunderprice.init rule.init = Ret ((), samples.registered).
Proof. reflexivity. Qed.

End registry.

(** ** The configuration binder *)

Section binder.
Import rule main.

Lemma call_RegisterConfigs_live σ r d :
  is_Some (deref r σ) →
  ∃ err σ',
    call_RegisterConfigs r d σ = Ret (err, σ') ∧
    ruleRegistry σ' = ruleRegistry σ ∧
    (∀ r', is_Some (deref r' σ) → is_Some (deref r' σ')).
Proof.
  destruct r as [l|]; simpl; [|by intros [? ?]].
  intros [o Ho]. unfold call_RegisterConfigs. rewrite Ho.
  destruct (RegisterConfigs _ d) as [v err].
  eexists _, _. split_and!; [done..|].
  intros [l'|]; simpl; [|done]. intros [o' Ho'].
  destruct (decide (l = l')) as [<-|Hne].
  - rewrite list_lookup_insert_eq; [done|]. by eapply lookup_lt_Some.
  - by rewrite list_lookup_insert_ne.
Qed.

Lemma getRules_from_unknown σ rc rcs acc :
  ruleRegistry σ !! ID rc = None →
  getRules_from (rc :: rcs) acc σ = Ret ((acc, Some (not_known (ID rc))), σ).
Proof.
  intros H. cbn [getRules_from]. unfold json.Marshal, mbind, M_bind.
  by destruct (_ <? _)%nat; rewrite (RuleInRuleRegistry_None _ _ H).
Qed.

Lemma getRules_from_plain σ rc rcs acc r :
  resolves σ (ID rc) r → Configs rc = [] →
  getRules_from (rc :: rcs) acc σ = getRules_from rcs (acc ++ [r]) σ.
Proof.
  intros H E. cbn [getRules_from]. rewrite E. simpl. unfold mbind, M_bind.
  by rewrite (RuleInRuleRegistry_Some _ _ _ H).
Qed.

Lemma getRules_from_configured σ rc rcs acc r err σ' :
  resolves σ (ID rc) r → Configs rc ≠ [] →
  call_RegisterConfigs r (json.Marshal (Configs rc)).1 σ = Ret (err, σ') →
  getRules_from (rc :: rcs) acc σ =
    match err with
    | Some e => Ret ((acc, Some e), σ')
    | None => getRules_from rcs (acc ++ [r]) σ'
    end.
Proof.
  intros H E Hc. cbn [getRules_from].
  destruct (Configs rc) as [|kv kvs] eqn:Ecfg; [done|]. simpl in *.
  unfold mbind, M_bind. rewrite (RuleInRuleRegistry_Some _ _ _ H), Hc.
  by destruct err.
Qed.

Lemma getRules_from_spec σ rcs acc :
  registry_live σ →
  ∃ rules err σ',
    getRules_from rcs acc σ = Ret ((acc ++ rules, err), σ') ∧
    ruleRegistry σ' = ruleRegistry σ ∧
    match err with
    | None => Forall2 (λ rc r, resolves σ (ID rc) r) rcs rules
    | Some e =>
        ∃ pre rc post σ1,
          rcs = pre ++ rc :: post ∧
          getRules_from pre acc σ = Ret ((acc ++ rules, None), σ1) ∧
          ((ruleRegistry σ !! ID rc = None ∧
            e = errorString ("the following rule is not known: " +:+ ID rc) ∧
            σ' = σ1) ∨
           (∃ r, resolves σ (ID rc) r ∧ Configs rc ≠ [] ∧
              call_RegisterConfigs r (json.Marshal (Configs rc)).1 σ1 = Ret (Some e, σ')))
    end.
Proof.
  revert σ acc. induction rcs as [|rc rcs IH]; intros σ acc Hlive.
  { exists [], None, σ. rewrite app_nil_r. split_and!; [done..|constructor]. }
  destruct (ruleRegistry σ !! ID rc) as [r|] eqn:Hr.
  2:{ exists [], (Some (not_known (ID rc))), σ. rewrite app_nil_r.
      split_and!; [by apply getRules_from_unknown|done|].
      exists [], rc, rcs, σ. split_and!; [done|done|]. by left. }
  assert (∀ σ2 rules err σ' ,
    ruleRegistry σ2 = ruleRegistry σ →
    getRules_from (rc :: rcs) acc σ = getRules_from rcs (acc ++ [r]) σ2 →
    (∀ pre, getRules_from (rc :: pre) acc σ = getRules_from pre (acc ++ [r]) σ2) →
    getRules_from rcs (acc ++ [r]) σ2 = Ret (((acc ++ [r]) ++ rules, err), σ') →
    ruleRegistry σ' = ruleRegistry σ2 →
    match err with
    | None => Forall2 (λ rc r, resolves σ2 (ID rc) r) rcs rules
    | Some e =>
        ∃ pre rc' post σ1,
          rcs = pre ++ rc' :: post ∧
          getRules_from pre (acc ++ [r]) σ2 = Ret (((acc ++ [r]) ++ rules, None), σ1) ∧
          ((ruleRegistry σ2 !! ID rc' = None ∧
            e = errorString ("the following rule is not known: " +:+ ID rc') ∧
            σ' = σ1) ∨
           (∃ r, resolves σ2 (ID rc') r ∧ Configs rc' ≠ [] ∧
              call_RegisterConfigs r (json.Marshal (Configs rc')).1 σ1 = Ret (Some e, σ')))
    end →
    ∃ rules err σ',
      getRules_from (rc :: rcs) acc σ = Ret ((acc ++ rules, err), σ') ∧
      ruleRegistry σ' = ruleRegistry σ ∧
      match err with
      | None => Forall2 (λ rc r, resolves σ (ID rc) r) (rc :: rcs) rules
      | Some e =>
          ∃ pre rc' post σ1,
            rc :: rcs = pre ++ rc' :: post ∧
            getRules_from pre acc σ = Ret ((acc ++ rules, None), σ1) ∧
            ((ruleRegistry σ !! ID rc' = None ∧
              e = errorString ("the following rule is not known: " +:+ ID rc') ∧
              σ' = σ1) ∨
             (∃ r, resolves σ (ID rc') r ∧ Configs rc' ≠ [] ∧
                call_RegisterConfigs r (json.Marshal (Configs rc')).1 σ1 = Ret (Some e, σ')))
      end) as Hstep.
  { intros σ2 rules err σ' Hreg Hrun Hpre Hrest Hreg' Hpost.
    exists (r :: rules), err, σ'. rewrite Hrun, Hrest, <- app_assoc.
    split_and!; [done|congruence|].
    unfold resolves in *. destruct err as [e|].
    - destruct Hpost as (pre & rc' & post & σ1 & -> & Hp & Hfail).
      exists (rc :: pre), rc', post, σ1. rewrite Hpre, Hp, <- app_assoc, <- Hreg.
      by split_and!.
    - constructor; [done|]. eapply Forall2_impl; [done|]. simpl. congruence. }
  destruct (Configs rc) as [|kv kvs] eqn:Ecfg.
  - destruct (IH σ (acc ++ [r]) Hlive) as (rules & err & σ' & Hrun & Hreg & Hpost).
    apply (Hstep σ rules err σ'); try done.
    + by apply getRules_from_plain.
    + intros pre. by apply getRules_from_plain.
  - destruct (call_RegisterConfigs_live σ r (json.Marshal (Configs rc)).1)
      as (err0 & σ2 & Hc & Hreg2 & Hlive2); [by eapply Hlive|].
    assert (Configs rc ≠ []) as Hne by (by rewrite Ecfg).
    destruct err0 as [e|].
    + exists [], (Some e), σ2. rewrite app_nil_r. split_and!; [|done|].
      * by rewrite (getRules_from_configured _ _ _ _ r (Some e) σ2).
      * exists [], rc, rcs, σ. split_and!; [done|done|].
        right. by exists r.
    + assert (registry_live σ2) as Hl2.
      { intros n r' Hn. apply Hlive2. eapply Hlive. by rewrite <- Hreg2. }
      destruct (IH σ2 (acc ++ [r]) Hl2) as (rules & err & σ' & Hrun & Hreg & Hpost).
      apply (Hstep σ2 rules err σ'); try done.
      * by rewrite (getRules_from_configured _ _ _ _ r None σ2).
      * intros pre. by rewrite (getRules_from_configured _ _ _ _ r None σ2).
Qed.

Lemma call_RegisterConfigs_run σ l o d v err :
  heap σ !! l = Some o →
  @RegisterConfigs _ (obj_methods o) (obj_value o) d = (v, err) →
  call_RegisterConfigs (Some l) d σ
  = Ret (err, State (<[l := @Obj _ (obj_methods o) v]> (heap σ)) (ruleRegistry σ)).
Proof. intros Ho Hv. unfold call_RegisterConfigs. by rewrite Ho, Hv. Qed.

Lemma binds_run σ rcs rules σ' :
  binds σ rcs rules σ' →
  (∀ acc, getRules_from rcs acc σ = Ret ((acc ++ rules, None), σ')) ∧
  ruleRegistry σ' = ruleRegistry σ ∧
  Forall2 (λ rc r, resolves σ (ID rc) r) rcs rules.
Proof.
  induction 1 as [σ|σ rc rcs r rules σ' Hr Hc _ (IHrun & IHreg & IHres)
                   |σ rc rcs l o v rules σ' Hr Hc Ho Hv _ (IHrun & IHreg & IHres)].
  - split_and!; [|done|constructor]. intros acc. by rewrite app_nil_r.
  - split_and!; [|done|by constructor]. intros acc.
    rewrite (getRules_from_plain σ rc rcs acc r Hr Hc), IHrun.
    by rewrite <- app_assoc.
  - split_and!; [|done|].
    + intros acc.
      rewrite (getRules_from_configured σ rc rcs acc (Some l) None _ Hr Hc
                 (call_RegisterConfigs_run σ l o _ v None Ho Hv)), IHrun.
      by rewrite <- app_assoc.
    + constructor; [done|]. eapply Forall2_impl; [done|]. by simpl.
Qed.

Lemma binds_fail_run σ pre rules σ1 rc e σ' post :
  binds σ pre rules σ1 → entry_fails σ1 rc e σ' →
  ∀ acc, getRules_from (pre ++ rc :: post) acc σ = Ret ((acc ++ rules, Some e), σ').
Proof.
  intros Hb Hfail.
  induction Hb as [σ|σ rc0 rcs r rules σ1 Hr Hc _ IH
                  |σ rc0 rcs l o v rules σ1 Hr Hc Ho Hv _ IH]; intros acc.
  - rewrite app_nil_r. simpl app.
    destruct Hfail as [(Hn & -> & ->)|(l & o & v & Hr & Hc & Ho & Hv & ->)].
    + by apply getRules_from_unknown.
    + by rewrite (getRules_from_configured σ rc post acc (Some l) (Some e) _ Hr Hc
                    (call_RegisterConfigs_run σ l o _ v (Some e) Ho Hv)).
  - simpl app. rewrite (getRules_from_plain σ rc0 _ acc r Hr Hc), (IH Hfail).
    by rewrite <- app_assoc.
  - simpl app.
    rewrite (getRules_from_configured σ rc0 _ acc (Some l) None _ Hr Hc
               (call_RegisterConfigs_run σ l o _ v None Ho Hv)), (IH Hfail).
    by rewrite <- app_assoc.
Qed.

Lemma registry_live_configured σ l o v :
  registry_live σ → heap σ !! l = Some o →
  registry_live (State (<[l := @Obj _ (obj_methods o) v]> (heap σ)) (ruleRegistry σ)).
Proof.
  intros Hlive Ho n r Hn. destruct (Hlive n r Hn) as [o' Ho'].
  destruct r as [l'|]; simpl in *; [|done].
  destruct (decide (l = l')) as [<-|Hne].
  - rewrite list_lookup_insert_eq; [done|]. by eapply lookup_lt_Some.
  - by rewrite list_lookup_insert_ne.
Qed.

(** The entries bind without error, or there is a first one that fails. *)
Lemma binds_or_fails σ rcs :
  registry_live σ →
  (∃ rules σ', binds σ rcs rules σ') ∨
  (∃ pre rc post rules σ1 e σ',
     rcs = pre ++ rc :: post ∧ binds σ pre rules σ1 ∧ entry_fails σ1 rc e σ').
Proof.
  revert σ. induction rcs as [|rc rcs IH]; intros σ Hlive.
  { left. exists [], σ. constructor. }
  destruct (ruleRegistry σ !! ID rc) as [r|] eqn:Hr.
  2:{ right. exists [], rc, rcs, [], σ, (not_known (ID rc)), σ.
      split_and!; [done|constructor|]. by left. }
  destruct (decide (Configs rc = [])) as [Hc|Hc].
  - destruct (IH σ Hlive) as [(rules & σ' & Hb)
                             |(pre & rc' & post & rules & σ1 & e & σ' & -> & Hb & Hf)].
    + left. exists (r :: rules), σ'. by apply binds_plain.
    + right. exists (rc :: pre), rc', post, (r :: rules), σ1, e, σ'.
      split_and!; [done| |done]. by apply binds_plain.
  - destruct (Hlive _ _ Hr) as [o Ho]. destruct r as [l|]; simpl in Ho; [|done].
    destruct (@RegisterConfigs _ (obj_methods o) (obj_value o)
                (json.Text (json.Object (Configs rc)))) as [v [e|]] eqn:Hv.
    + right.
      exists [], rc, rcs, [], σ, e,
        (State (<[l := @Obj _ (obj_methods o) v]> (heap σ)) (ruleRegistry σ)).
      split_and!; [done|constructor|]. right. by exists l, o, v.
    + destruct (IH _ (registry_live_configured σ l o v Hlive Ho))
        as [(rules & σ' & Hb)|(pre & rc' & post & rules & σ1 & e & σ' & -> & Hb & Hf)].
      * left. exists (Some l :: rules), σ'. by eapply binds_configured.
      * right. exists (rc :: pre), rc', post, (Some l :: rules), σ1, e, σ'.
        split_and!; [done| |done]. by eapply binds_configured.
Qed.

(** C5: in a state whose registered rules are live, the binder returns
    (it does not panic) and leaves the registry as it was.  Without error,
    the entries have been bound in order ([binds]): each ID resolved, the
    configs of each entry that has some applied without error by the
    instance's own [RegisterConfigs] to the registered instance, in place,
    and the rules returned are those instances in the order of the entries.
    With an error, the entries split at a first failing one ([entry_fails]):
    the entries before it have been bound in the same way, their rules are
    the ones returned, and the state returned is the one they left (when the
    failing ID does not resolve) or that state with the failing instance as
    its failed [RegisterConfigs] call left it: nothing is undone. *)
Theorem getRules_spec (σ : state) (rcs : list RuleConfig) :
  registry_live σ →
  ∃ rules err σ',
    getRules rcs σ = Ret ((rules, err), σ') ∧
    ruleRegistry σ' = ruleRegistry σ ∧
    match err with
    | None =>
        Forall2 (λ rc r, resolves σ (ID rc) r) rcs rules ∧
        binds σ rcs rules σ'
    | Some e =>
        ∃ pre rc post σ1,
          rcs = pre ++ rc :: post ∧
          getRules pre σ = Ret ((rules, None), σ1) ∧
          binds σ pre rules σ1 ∧
          entry_fails σ1 rc e σ' ∧
          ((ruleRegistry σ !! ID rc = None ∧
            e = errorString ("the following rule is not known: " +:+ ID rc) ∧
            σ' = σ1) ∨
           (∃ r, resolves σ (ID rc) r ∧ Configs rc ≠ [] ∧
              call_RegisterConfigs r (json.Marshal (Configs rc)).1 σ1 = Ret (Some e, σ')))
    end.
Proof.
  intros Hlive.
  destruct (binds_or_fails σ rcs Hlive)
    as [(rules & σ' & Hb)|(pre & rc & post & rules & σ1 & e & σ' & -> & Hb & Hf)].
  - destruct (binds_run _ _ _ _ Hb) as (Hrun & Hreg & Hres).
    exists rules, None, σ'. split_and!; [apply (Hrun [])|done..].
  - destruct (binds_run _ _ _ _ Hb) as (Hrun & Hreg & Hres).
    exists rules, (Some e), σ'. split_and!.
    + apply (binds_fail_run σ pre rules σ1 rc e σ' post Hb Hf []).
    + destruct Hf as [(_ & _ & ->)|(l & o & v & _ & _ & _ & _ & ->)]; by rewrite <- Hreg.
    + exists pre, rc, post, σ1. split_and!; [done|apply (Hrun [])|done|done|].
      destruct Hf as [(Hn & -> & ->)|(l & o & v & Hr & Hc & Ho & Hv & ->)].
      * left. by rewrite <- Hreg.
      * right. exists (Some l). unfold resolves. rewrite <- Hreg.
        split_and!; [done|done|]. by apply call_RegisterConfigs_run.
Qed.

Lemma registered_live : registry_live samples.registered.
Proof.
  intros n r H. cbn [samples.registered ruleRegistry] in H.
  apply lookup_singleton_Some in H as [_ <-]. by eexists.
Qed.

Lemma getRules_spec_witness :
  ∃ rules err σ',
    getRules samples.configs samples.registered = Ret ((rules, err), σ') ∧
    ruleRegistry σ' = ruleRegistry samples.registered ∧
    match err with
    | None =>
        Forall2 (λ rc r, resolves samples.registered (ID rc) r) samples.configs rules ∧
        binds samples.registered samples.configs rules σ'
    | Some e =>
        ∃ pre rc post σ1,
          samples.configs = pre ++ rc :: post ∧
          getRules pre samples.registered = Ret ((rules, None), σ1) ∧
          binds samples.registered pre rules σ1 ∧
          entry_fails σ1 rc e σ' ∧
          ((ruleRegistry samples.registered !! ID rc = None ∧
            e = errorString ("the following rule is not known: " +:+ ID rc) ∧
            σ' = σ1) ∨
           (∃ r, resolves samples.registered (ID rc) r ∧ Configs rc ≠ [] ∧
              call_RegisterConfigs r (json.Marshal (Configs rc)).1 σ1 = Ret (Some e, σ')))
    end.
Proof. apply (getRules_spec samples.registered samples.configs registered_live). Defined.

(** What [binds] says of one entry that has configs: the instance the ID
    resolves to has taken them, without error, and stands configured in the
    state reached. *)
Lemma binds_one_configured σ rc rules σ' :
  Configs rc ≠ [] →
  binds σ [rc] rules σ' →
  ∃ l o v,
    resolves σ (ID rc) (Some l) ∧ heap σ !! l = Some o ∧
    @RegisterConfigs _ (obj_methods o) (obj_value o)
      (json.Text (json.Object (Configs rc))) = (v, None) ∧
    rules = [Some l] ∧
    σ' = State (<[l := @Obj _ (obj_methods o) v]> (heap σ)) (ruleRegistry σ).
Proof.
  intros Hne H.
  inversion H as [|? ? ? ? ? ? ? Hc|? ? ? l o v ? ? Hr Hc Ho Hv Hb]; subst; [done|].
  inversion Hb; subst. by exists l, o, v.
Qed.

(** On the sample state: binding the entry that sets the price leaves the
    instance with the ceiling 100, and an entry whose price is a string
    does not bind. *)
Lemma binds_sample rules σ' :
  (binds samples.registered
     [ {| ID := "ramunderprice"; Configs := [("price"%string, json.Int 100)] |} ]
     rules σ' →
   rules = [Some 0%nat] ∧
   σ' = State [Obj {| ramunderprice.Price := 100 |}]
              (ruleRegistry samples.registered)) ∧
  ¬ binds samples.registered
      [ {| ID := "ramunderprice"; Configs := [("price"%string, json.Str "abc")] |} ]
      rules σ'.
Proof.
  split.
  - intros H. apply binds_one_configured in H
      as (l & o & v & Hr & Ho & Hv & -> & ->); [|done].
    vm_compute in Hr. injection Hr as <-.
    simpl in Ho. injection Ho as <-. simpl in Hv. by injection Hv as <-.
  - intros H. apply binds_one_configured in H
      as (l & o & v & Hr & Ho & Hv & -> & ->); [|done].
    vm_compute in Hr. injection Hr as <-.
    simpl in Ho. injection Ho as <-. simpl in Hv. discriminate Hv.
Qed.

(** The run of the sample configuration: the second entry fails, and the
    instance keeps the ceiling the first entry gave it. *)
Lemma getRules_configs_run :
  getRules samples.configs samples.registered
  = Ret (([Some 0%nat], Some (errorString "the following rule is not known: nosuch")),
         State [Obj {| ramunderprice.Price := 100 |}]
               {[ "ramunderprice"%string := Some 0%nat ]}) ∧
  getRules [] samples.registered = Ret (([], None), samples.registered).
Proof. split; reflexivity. Qed.

End binder.

(** ** The matchers *)

Section matchers.
Import rule.

Lemma postPasses_from_spec σ rules post (f : Rule → bool) b0 :
  (∀ r, r ∈ rules → call_Match r post σ = Ret (f r, σ)) →
  heuristic.postPasses_from rules post b0 σ = Ret (b0 && forallb f rules, σ).
Proof.
  revert b0. induction rules as [|r rules IH]; intros b0 H.
  - simpl. by rewrite andb_true_r.
  - cbn [heuristic.postPasses_from forallb]. unfold mbind, M_bind.
    rewrite H by left. rewrite IH by (intros; apply H; by right).
    by destruct (f r), b0.
Qed.

(** C3: when the rules return on the posts of the batch, [appliedTo]
    appends to the output exactly the posts on which every rule returned
    true, in the order of the batch. *)
Theorem appliedTo_spec (σ : state) (h : heuristic.Heuristic)
    (posts matches : list reddit.Post) (f : Rule → reddit.Post → bool) :
  (∀ r p, r ∈ heuristic.rules h → p ∈ posts →
     call_Match r p σ = Ret (f r p, σ)) →
  heuristic.appliedTo h posts matches σ
  = Ret (matches ++
           List.filter (λ p, forallb (λ r, f r p) (heuristic.rules h)) posts, σ).
Proof.
  revert matches. induction posts as [|p posts IH]; intros matches H.
  - simpl. by rewrite app_nil_r.
  - cbn [heuristic.appliedTo List.filter]. unfold mbind, M_bind.
    rewrite (postPasses_from_spec _ _ _ (λ r, f r p))
      by (intros; apply H; [done|by left]).
    simpl. destruct (forallb _ _).
    + rewrite IH by (intros; apply H; [done|by right]). by rewrite <- app_assoc.
    + apply IH. intros. apply H; [done|by right].
Qed.

Lemma appliedTo_spec_witness :
  heuristic.appliedTo {| heuristic.rules := [Some 0%nat; Some 1%nat] |}
    [samples.P1; samples.P2] [] samples.two_rules
  = Ret ([samples.P2], samples.two_rules).
Proof.
  apply (appliedTo_spec samples.two_rules
           {| heuristic.rules := [Some 0%nat; Some 1%nat] |}
           [samples.P1; samples.P2] []
           (λ r p, match r with
                   | Some O => true
                   | _ => String.eqb (reddit.ID p) "p2"
                   end)).
  intros r p Hr Hp.
  apply elem_of_cons in Hr as [->|Hr]; [reflexivity|].
  apply elem_of_cons in Hr as [->|Hr]; [reflexivity|].
  by apply elem_of_nil in Hr.
Defined.

Lemma matchPosts_rules_spec σ rules post (m : gmap string reddit.Post)
    (f : Rule → bool) (nm : Rule → string) :
  (∀ r, r ∈ rules → call_Match r post σ = Ret (f r, σ)) →
  (∀ r, r ∈ rules → call_Name r σ = Ret (nm r, σ)) →
  ∃ m',
    main.matchPosts_rules rules post m σ = Ret (m', σ) ∧
    ∀ n, m' !! n =
      if existsb (λ r, f r && bool_decide (nm r = n)) rules
      then Some post else m !! n.
Proof.
  revert m. induction rules as [|r rules IH]; intros m Hf Hn.
  - by exists m.
  - cbn [main.matchPosts_rules existsb]. unfold mbind at 1. unfold M_bind.
    rewrite Hf by left.
    assert (∀ r', r' ∈ rules → call_Match r' post σ = Ret (f r', σ)) as Hf'
      by (intros; apply Hf; by right).
    assert (∀ r', r' ∈ rules → call_Name r' σ = Ret (nm r', σ)) as Hn'
      by (intros; apply Hn; by right).
    destruct (f r) eqn:Hr; simpl.
    + unfold mbind, M_bind. rewrite Hn by left.
      destruct (IH (<[nm r := post]> m) Hf' Hn') as (m' & Hrun & Hm').
      exists m'. split; [done|]. intros n. rewrite Hm'.
      destruct (existsb _ rules); [by rewrite orb_true_r|].
      rewrite orb_false_r. case_bool_decide as E.
      * subst n. by rewrite lookup_insert_eq.
      * by rewrite lookup_insert_ne.
    + by apply IH.
Qed.

(** Per name: the entry of [n] is the last post of the batch matched by
    some rule named [n]. *)
Lemma matchPosts_from_spec σ rules posts (m : gmap string reddit.Post)
    (f : Rule → reddit.Post → bool) (nm : Rule → string) :
  (∀ r p, r ∈ rules → p ∈ posts → call_Match r p σ = Ret (f r p, σ)) →
  (∀ r, r ∈ rules → call_Name r σ = Ret (nm r, σ)) →
  ∃ m',
    main.matchPosts_from rules posts m σ = Ret (m', σ) ∧
    ∀ n, m' !! n =
      match last (List.filter
                    (λ p, existsb (λ r, f r p && bool_decide (nm r = n)) rules)
                    posts) with
      | Some p => Some p
      | None => m !! n
      end.
Proof.
  revert m. induction posts as [|p posts IH]; intros m Hf Hn.
  - by exists m.
  - cbn [main.matchPosts_from]. unfold mbind, M_bind.
    destruct (matchPosts_rules_spec σ rules p m (λ r, f r p) nm)
      as (m1 & Hrun1 & Hm1); [intros; apply Hf; [done|by left] | done |].
    rewrite Hrun1.
    destruct (IH m1) as (m' & Hrun & Hm'); [intros; apply Hf; [done|by right] | done |].
    exists m'. split; [done|]. intros n. rewrite Hm', Hm1. cbn [List.filter].
    destruct (existsb _ rules); [|done].
    rewrite last_cons. by destruct (last _).
Qed.

Lemma filter_none {A} (g : A → bool) (l : list A) :
  (∀ x, x ∈ l → g x = false) → List.filter g l = [].
Proof.
  induction l as [|x l IH]; intros H; [done|]. simpl.
  rewrite H by left. apply IH. intros. apply H. by right.
Qed.

Lemma existsb_same_name rules (g : Rule → bool) (nm : Rule → string) r :
  r ∈ rules →
  (∀ r', r' ∈ rules → nm r' = nm r → r' = r) →
  existsb (λ r', g r' && bool_decide (nm r' = nm r)) rules = g r.
Proof.
  intros Hr Hinj. destruct (g r) eqn:Hg.
  - apply existsb_exists. exists r. split; [by apply list_elem_of_In|].
    rewrite Hg. by rewrite bool_decide_eq_true_2.
  - apply not_true_is_false. intros (r' & Hin & H)%existsb_exists.
    apply andb_true_iff in H as [Hg' Hnm]. apply bool_decide_eq_true in Hnm.
    apply list_elem_of_In in Hin. rewrite (Hinj r' Hin Hnm) in Hg'. congruence.
Qed.

(** C4, amended: when the rules return on the posts of the batch and two
    rules of the sequence that share a name are the same rule, the result
    maps each rule's name to the last post of the batch that the rule
    matched, the name is absent exactly when the rule matched no post, and
    no other name is present. *)
Theorem matchPosts_spec (σ : state) (rules : list Rule)
    (posts : list reddit.Post) (f : Rule → reddit.Post → bool)
    (nm : Rule → string) :
  (∀ r p, r ∈ rules → p ∈ posts → call_Match r p σ = Ret (f r p, σ)) →
  (∀ r, r ∈ rules → call_Name r σ = Ret (nm r, σ)) →
  (∀ r r', r ∈ rules → r' ∈ rules → nm r' = nm r → r' = r) →
  ∃ m,
    main.matchPosts rules posts σ = Ret (m, σ) ∧
    (∀ r, r ∈ rules → m !! nm r = last (List.filter (f r) posts)) ∧
    (∀ r, r ∈ rules → m !! nm r = None ↔ ∀ p, p ∈ posts → f r p = false) ∧
    (∀ n, (∀ r, r ∈ rules → nm r ≠ n) → m !! n = None).
Proof.
  intros Hf Hn Hinj.
  destruct (matchPosts_from_spec σ rules posts ∅ f nm Hf Hn) as (m & Hrun & Hm).
  assert (∀ r, r ∈ rules → m !! nm r = last (List.filter (f r) posts)) as Hlast.
  { intros r Hr. rewrite Hm, lookup_empty.
    rewrite (List.filter_ext _ (f r)).
    - by destruct (last _).
    - intros p. apply existsb_same_name; [done|]. intros. by apply Hinj. }
  exists m. split_and!; [done|done| |].
  - intros r Hr. rewrite Hlast by done. rewrite last_None. split.
    + intros E p Hp. apply not_true_is_false. intros Hfp.
      assert (In p (List.filter (f r) posts)) as Hin
        by (apply filter_In; split; [by apply list_elem_of_In|done]).
      by rewrite E in Hin.
    + apply filter_none.
  - intros n Hnone. rewrite Hm, lookup_empty.
    rewrite filter_none; [done|].
    intros p _. apply not_true_is_false. intros (r & Hin & H)%existsb_exists.
      apply andb_true_iff in H as [_ Hnm]. apply bool_decide_eq_true in Hnm.
    apply list_elem_of_In in Hin. by eapply Hnone.
Qed.

Lemma matchPosts_spec_witness :
  ∃ m,
    main.matchPosts [Some 0%nat] [samples.P1; samples.P2] samples.two_rules
    = Ret (m, samples.two_rules) ∧
    m !! "R1"%string = Some samples.P2.
Proof.
  destruct (matchPosts_spec samples.two_rules [Some 0%nat]
              [samples.P1; samples.P2] (λ _ _, true) (λ _, "R1"%string))
    as (m & Hrun & Hlast & _).
  - intros r p Hr _. apply elem_of_cons in Hr as [->|Hr]; [reflexivity|].
    by apply elem_of_nil in Hr.
  - intros r Hr. apply elem_of_cons in Hr as [->|Hr]; [reflexivity|].
    by apply elem_of_nil in Hr.
  - intros r r' Hr Hr' _.
    apply elem_of_cons in Hr as [->|Hr]; [|by apply elem_of_nil in Hr].
    apply elem_of_cons in Hr' as [->|Hr']; [done|by apply elem_of_nil in Hr'].
  - exists m. split; [exact Hrun|].
    apply (Hlast (Some 0%nat)). by left.
Defined.

(** C4, as stated, fails on two rules of one name: the first rule matches
    no post, and its name is in the result, mapped to the post the second
    rule matched. *)
Lemma matchPosts_same_name_counterexample :
  call_Name (Some 0%nat) samples.same_name = Ret ("x"%string, samples.same_name) ∧
  call_Name (Some 1%nat) samples.same_name = Ret ("x"%string, samples.same_name) ∧
  call_Match (Some 0%nat) samples.P1 samples.same_name = Ret (false, samples.same_name) ∧
  call_Match (Some 1%nat) samples.P1 samples.same_name = Ret (true, samples.same_name) ∧
  main.matchPosts [Some 0%nat; Some 1%nat] [samples.P1] samples.same_name
  = Ret ({[ "x"%string := samples.P1 ]}, samples.same_name).
Proof. split_and!; reflexivity. Qed.

End matchers.

(** ** The command line and the post handler *)

Section command_line.
Import main.

Lemma stringInArr_elem (strArg : string) (arr : list string) :
  stringInArr strArg arr = true ↔ strArg ∈ arr.
Proof.
  induction arr as [|val arr IH]; simpl.
  - split; [done|]. by intros ?%elem_of_nil.
  - rewrite elem_of_cons. destruct (String.eqb_spec val strArg) as [->|Hne].
    + split; [by left|done].
    + rewrite IH. split; [by right|]. intros [E|H]; [by subst|done].
Qed.

(** X1: [stringInArr] tells whether the string is an element of the
    array, whatever stands before or after it. *)
Theorem stringInArr_spec (strArg : string) (arr : list string) :
  (stringInArr strArg arr = true ↔ strArg ∈ arr) ∧
  (stringInArr strArg arr = false ↔ strArg ∉ arr).
Proof.
  split; [apply stringInArr_elem|].
  rewrite <- stringInArr_elem. by destruct (stringInArr strArg arr).
Qed.

Lemma parseCmdArgs_scan_rest i args pconfs :
  helpFlagPassedIn (parseCmdArgs_scan (S i) args pconfs) = true ↔
  helpFlagPassedIn pconfs = true ∨
  ∃ pre val post,
    args = pre ++ val :: post ∧ ("--"%string ∉ pre) ∧
    val ∈ ["-h"; "-help"; "--help"]%string.
Proof.
  revert i pconfs. induction args as [|a args IH]; intros i pconfs.
  - simpl. split; [by left|]. intros [H|(pre & ? & ? & H & _)]; [done|].
    by destruct pre.
  - cbn [parseCmdArgs_scan]. change (S i <? 1)%nat with false. cbv iota.
    destruct (String.eqb_spec a "--") as [->|Hdash].
    + split; [by left|]. intros [H|(pre & v & post & E & Hpre & Hv)]; [done|].
      destruct pre as [|b pre]; simpl in E; simplify_eq.
      * exfalso. revert Hv. rewrite !elem_of_cons, elem_of_nil. naive_solver.
      * exfalso. apply Hpre. by left.
    + destruct (stringInArr a _) eqn:Ha.
      * rewrite IH. simpl. split; [|by left]. intros _. right.
        exists [], a, args. split_and!; [done|by intros ?%elem_of_nil|].
        by apply stringInArr_elem.
      * rewrite IH. split.
        -- intros [H|(pre & v & post & -> & Hpre & Hv)]; [by left|]. right.
           exists (a :: pre), v, post. split_and!; [done| |done].
           rewrite elem_of_cons. naive_solver.
        -- intros [H|(pre & v & post & E & Hpre & Hv)]; [by left|].
           destruct pre as [|b pre]; simpl in E; simplify_eq.
           ++ apply stringInArr_elem in Hv. congruence.
           ++ right. exists pre, v, post. split_and!; [done| |done].
              intros Hin. apply Hpre. by right.
Qed.

(** X2: after the first loop of [parseCmdArgs] the help flag is set
    exactly when it was set before or one of -h, -help, --help stands
    among the arguments after the program's name and before the first
    "--". *)
Theorem parseCmdArgs_scan_spec (prog : string) (args : list string)
    (pconfs : progConfigs) :
  helpFlagPassedIn (parseCmdArgs_scan 0 (prog :: args) pconfs) = true ↔
  helpFlagPassedIn pconfs = true ∨
  ∃ pre val post,
    args = pre ++ val :: post ∧ ("--"%string ∉ pre) ∧
    val ∈ ["-h"; "-help"; "--help"]%string.
Proof. apply parseCmdArgs_scan_rest. Qed.

Lemma Post_fields (g : postGather) (p : reddit.Post) :
  stickyPostQueue (Post g p).1 = stickyPostQueue g ∧
  postThreshold (Post g p).1 = postThreshold g ∧
  postQueue (Post g p).1 =
    postQueue g ++
    (if negb (reddit.Stickied p) ||
        negb (bool_decide (is_Some (stickyPostQueue g !! reddit.ID p)))
     then [p] else []).
Proof.
  unfold Post. simpl. destruct (_ || _); simpl; [done|].
  by rewrite app_nil_r.
Qed.

Lemma filter_all {A} (g : A → bool) (l : list A) :
  (∀ x, g x = true) → List.filter g l = l.
Proof.
  intros H. induction l as [|x l IH]; [done|]. simpl. by rewrite H, IH.
Qed.

Lemma Post_all_fields (g : postGather) (ps : list reddit.Post) :
  postQueue (foldl (λ g p, (Post g p).1) g ps) =
    postQueue g ++
    List.filter (λ p, negb (reddit.Stickied p) ||
      negb (bool_decide (is_Some (stickyPostQueue g !! reddit.ID p)))) ps ∧
  stickyPostQueue (foldl (λ g p, (Post g p).1) g ps) = stickyPostQueue g ∧
  postThreshold (foldl (λ g p, (Post g p).1) g ps) = postThreshold g.
Proof.
  revert g. induction ps as [|p ps IH]; intros g.
  - simpl. by rewrite app_nil_r.
  - cbn [foldl List.filter]. destruct (IH (Post g p).1) as (Hq & Hs & Ht).
    destruct (Post_fields g p) as (Hs1 & Ht1 & Hq1).
    rewrite Hq, Hs, Ht, Hs1, Ht1, Hq1. split_and!; [|done|done].
    destruct (_ || _); by rewrite <- app_assoc.
Qed.

Lemma Post_all_no_sticky (g : postGather) (ps : list reddit.Post) :
  stickyPostQueue g = ∅ →
  postQueue (foldl (λ g p, (Post g p).1) g ps) = postQueue g ++ ps.
Proof.
  intros E. destruct (Post_all_fields g ps) as (Hq & _). rewrite Hq. f_equal.
  apply filter_all. intros p. rewrite E, lookup_empty.
  rewrite bool_decide_eq_false_2 by (by intros [? ?]). apply orb_true_r.
Qed.

(** X3: the handler called on the posts [ps] one after the other queues,
    in order, those that are not both stickied and known to
    [stickyPostQueue], and never writes to [stickyPostQueue]; so a handler
    that knows no sticky post queues every post. *)
Theorem Post_all_spec (g : postGather) (ps : list reddit.Post) :
  let g' := foldl (λ g p, (Post g p).1) g ps in
  postQueue g' =
    postQueue g ++
    List.filter (λ p, negb (reddit.Stickied p) ||
                      negb (bool_decide (is_Some (stickyPostQueue g !! reddit.ID p)))) ps ∧
  stickyPostQueue g' = stickyPostQueue g ∧
  postThreshold g' = postThreshold g ∧
  (stickyPostQueue g = ∅ → postQueue g' = postQueue g ++ ps).
Proof.
  cbn zeta. destruct (Post_all_fields g ps) as (Hq & Hs & Ht).
  split_and!; [done..|]. apply Post_all_no_sticky.
Qed.

(** X20: the handler that [main] builds has met its threshold exactly
    when five posts or more have been handed to it, stickied or not. *)
Theorem handler0_threshold (ps : list reddit.Post) :
  atPostThreshold (foldl (λ g p, (Post g p).1) handler0 ps)
  = bool_decide (5 ≤ length ps)%nat.
Proof.
  unfold atPostThreshold.
  destruct (Post_all_fields handler0 ps) as (_ & _ & ->).
  rewrite (Post_all_no_sticky handler0 ps eq_refl). simpl.
  unfold defaultPostThreshold.
  destruct (Z.geb_spec (Z.of_nat (length ps)) 5); symmetry.
  - apply bool_decide_eq_true. lia.
  - apply bool_decide_eq_false. lia.
Qed.

(** X4: when the threshold is met the queue is flushed before
    [matchPosts] reads it: no rule is called (nil rules included), the
    state is left as it was, and the message lists the posts and ends with
    an empty list of matches. *)
Theorem report_no_matches (range : gmap string reddit.Post → list (string * reddit.Post))
    (SendMailTo subreddit : string) (rules : list rule.Rule)
    (handler : postGather) (σ : rule.state) :
  range ∅ = [] →
  atPostThreshold handler = true →
  report range SendMailTo subreddit rules handler σ =
    Ret ((Some (gostrings.Join
                  (["To: " +:+ SendMailTo;
                    "Subject: rsb Report: " +:+ quote +:+ subreddit +:+ quote;
                    EmptyString; "Posts:"%string]
                   ++ postUrls_from 0 (postQueue handler) []) CRLF
                +:+ "Matches:"),
          flushPostQueue handler), σ).
Proof.
  intros Hrange Hth. unfold report. rewrite Hth. cbn zeta.
  unfold getPostQueue, matchPosts.
  change (postQueue (flushPostQueue handler)) with (@nil reddit.Post).
  cbn [matchPosts_from].
  unfold mbind, rule.M_bind, mret, rule.M_ret. rewrite Hrange. reflexivity.
Qed.

Lemma report_no_matches_witness :
  ∃ msg,
    report map_to_list "me@example.com" "buildapcsales" [None; Some 7%nat]
      {| postQueue := [samples.P1; samples.P2]; postThreshold := 2;
         stickyPostQueue := ∅ |} rule.init
    = Ret ((Some msg, {| postQueue := []; postThreshold := 2; stickyPostQueue := ∅ |}),
           rule.init).
Proof.
  eexists.
  apply (report_no_matches map_to_list "me@example.com" "buildapcsales"
           [None; Some 7%nat]
           {| postQueue := [samples.P1; samples.P2]; postThreshold := 2;
              stickyPostQueue := ∅ |} rule.init); reflexivity.
Defined.

End command_line.

(** ** More on the registry and the binder *)

Section registry_more.
Import rule.

Lemma GetRegisteredRules_from_acc names acc σ :
  GetRegisteredRules_from names acc σ =
    match GetRegisteredRules_from names [] σ with
    | Ret ((rs, err), σ') => Ret ((acc ++ rs, err), σ')
    | Panic v => Panic v
    end.
Proof.
  revert acc. induction names as [|n names IH]; intros acc.
  - simpl. unfold mret, M_ret. by rewrite app_nil_r.
  - cbn [GetRegisteredRules_from]. unfold mbind, M_bind, RuleInRuleRegistry.
    destruct (ruleRegistry σ !! n) as [r|].
    + rewrite (IH (acc ++ [r])), (IH ([] ++ [r])).
      destruct (GetRegisteredRules_from names [] σ) as [[[rs err] σ']|v]; [|done].
      by rewrite <- app_assoc.
    + unfold mret, M_ret. by rewrite app_nil_r.
Qed.

(** X5: the revision of [GetRegisteredRules] that writes through the
    caller's slice leaves in it what was there followed by what the
    returning revision returns, with the same error, also when it stops at
    an unknown name. *)
Theorem GetRegisteredRules_out_param (ruleNames : list string)
    (rulesFound : list Rule) (σ : state) :
  out_params.GetRegisteredRules ruleNames rulesFound σ =
    match GetRegisteredRules ruleNames σ with
    | Ret ((rs, err), σ') => Ret ((rulesFound ++ rs, err), σ')
    | Panic v => Panic v
    end.
Proof. apply GetRegisteredRules_from_acc. Qed.

Lemma getRules_from_acc rcs acc σ :
  main.getRules_from rcs acc σ =
    match main.getRules_from rcs [] σ with
    | Ret ((rs, err), σ') => Ret ((acc ++ rs, err), σ')
    | Panic v => Panic v
    end.
Proof.
  revert acc σ. induction rcs as [|rc rcs IH]; intros acc σ.
  - simpl. unfold mret, M_ret. by rewrite app_nil_r.
  - cbn [main.getRules_from]. unfold json.Marshal, mbind, M_bind, RuleInRuleRegistry.
    destruct (0 <? _)%nat; destruct (ruleRegistry σ !! main.ID rc) as [r|];
      unfold mret, M_ret; rewrite ?app_nil_r; try done.
    + destruct (call_RegisterConfigs r _ σ) as [[[e|] σ2]|v]; rewrite ?app_nil_r; try done.
      rewrite (IH (acc ++ [r])), (IH ([] ++ [r])).
      destruct (main.getRules_from rcs [] σ2) as [[[rs err] σ']|v]; [|done].
      by rewrite <- app_assoc.
    + rewrite (IH (acc ++ [r])), (IH ([] ++ [r])).
      destruct (main.getRules_from rcs [] σ) as [[[rs err] σ']|v]; [|done].
      by rewrite <- app_assoc.
Qed.

(** X6: the revision of [getRules] that writes through the caller's slice
    leaves in it what was there followed by the rules the returning
    revision returns, with the same error and the same effect on the
    instances. *)
Theorem getRules_out_param (rcs : list main.RuleConfig) (rules : list Rule)
    (σ : state) :
  out_params.getRules rcs rules σ =
    match main.getRules rcs σ with
    | Ret ((rs, err), σ') => Ret ((rules ++ rs, err), σ')
    | Panic v => Panic v
    end.
Proof. apply getRules_from_acc. Qed.

Lemma getRules_from_no_configs rcs acc σ :
  Forall (λ rc, main.Configs rc = []) rcs →
  main.getRules_from rcs acc σ = GetRegisteredRules_from (main.ID <$> rcs) acc σ.
Proof.
  intros H. revert acc. induction H as [|rc rcs Hrc _ IH]; intros acc; [done|].
  cbn [main.getRules_from fmap list_fmap GetRegisteredRules_from]. rewrite Hrc.
  simpl. unfold mbind, M_bind, RuleInRuleRegistry.
  destruct (ruleRegistry σ !! main.ID rc); [apply IH|done].
Qed.

(** X7: on entries that carry no configs the binder is the bulk lookup of
    their IDs: no [RegisterConfigs] is called. *)
Theorem getRules_no_configs (rcs : list main.RuleConfig) (σ : state) :
  Forall (λ rc, main.Configs rc = []) rcs →
  main.getRules rcs σ = GetRegisteredRules (main.ID <$> rcs) σ.
Proof. apply getRules_from_no_configs. Qed.

Lemma getRules_no_configs_witness :
  main.getRules [ {| main.ID := "ramunderprice"; main.Configs := [] |};
                  {| main.ID := "nosuch"; main.Configs := [] |} ] samples.registered
  = GetRegisteredRules ["ramunderprice"; "nosuch"]%string samples.registered.
Proof.
  apply (getRules_no_configs
           [ {| main.ID := "ramunderprice"; main.Configs := [] |};
             {| main.ID := "nosuch"; main.Configs := [] |} ] samples.registered).
  repeat constructor.
Defined.

Lemma deref_app σ r o extra :
  deref r σ = Some o →
  deref r (State (heap σ ++ extra) (ruleRegistry σ)) = Some o.
Proof.
  destruct r as [l|]; simpl; [|done]. intros H.
  by rewrite lookup_app_l_Some with (x := o).
Qed.

(** X8: a rule that is no instance (nil) makes [RegisterRule] panic; an
    instance is stored under its name: the instances and the entries of all
    other names stay as they were, and the registered rules stay live. *)
Theorem RegisterRule_spec (σ : state) (r : Rule) :
  (deref r σ = None → RegisterRule r σ = nil_dereference) ∧
  (∀ o, deref r σ = Some o →
     let name := @Name _ (obj_methods o) (obj_value o) in
     let σ' := State (heap σ) (<[name := r]> (ruleRegistry σ)) in
     RegisterRule r σ = Ret ((), σ') ∧
     (∀ n, n ≠ name → ruleRegistry σ' !! n = ruleRegistry σ !! n) ∧
     (registry_live σ → registry_live σ')).
Proof.
  split.
  - intros H. unfold RegisterRule, mbind, M_bind, call_Name. by rewrite H.
  - intros o Ho. cbn zeta. split_and!.
    + unfold RegisterRule, mbind, M_bind, call_Name. by rewrite Ho.
    + intros n Hn. simpl. by rewrite lookup_insert_ne.
    + intros Hlive n r'. simpl. rewrite lookup_insert.
      case_decide as E.
      * intros [= <-]. by exists o.
      * apply Hlive.
Qed.

Lemma RegisterRule_spec_witness :
  RegisterRule None samples.registered = nil_dereference ∧
  RegisterRule (Some 0%nat) samples.registered = Ret ((), samples.registered).
Proof.
  split.
  - apply (proj1 (RegisterRule_spec samples.registered None)). reflexivity.
  - exact (proj1 (proj2 (RegisterRule_spec samples.registered (Some 0%nat))
                    (Obj {| ramunderprice.Price := ramunderprice.defaultPrice |})
                    eq_refl)).
Defined.

(** X9: whatever the state, [ramunderprice.init] keeps the instances that
    exist, adds one with the default price, and stores it under
    "ramunderprice", over any rule stored there before; the lookup of that
    name then returns the new instance, which matches no post; live
    registered rules stay live. *)
Theorem init_spec (σ : state) :
  let r := Some (length (heap σ)) in
  let σ' :=
    State (heap σ ++ [Obj {| ramunderprice.Price := ramunderprice.defaultPrice |}])
          (<["ramunderprice"%string := r]> (ruleRegistry σ)) in
  ramunderprice.init σ = Ret ((), σ') ∧
  RuleInRuleRegistry "ramunderprice" σ' = Ret ((r, None), σ') ∧
  (∀ post, call_Match r post σ' = Ret (false, σ')) ∧
  (registry_live σ → registry_live σ').
Proof.
  cbn zeta.
  assert (∀ (A : Type) (l : list A) (x : A), (l ++ [x]) !! length l = Some x) as Hsnoc.
  { intros A l x. rewrite lookup_app_r by done. by rewrite Nat.sub_diag. }
  split_and!.
  - unfold ramunderprice.init, mbind, M_bind, alloc, RegisterRule, mbind, M_bind,
      call_Name, deref. simpl. by rewrite Hsnoc.
  - unfold RuleInRuleRegistry. simpl. by rewrite lookup_insert_eq.
  - intros post. unfold call_Match, deref. simpl. rewrite Hsnoc.
    cbn [obj_value obj_methods Match ramunderprice.methods].
    unfold mbind, result_bind. by rewrite Match_false.
  - intros Hlive n r'. simpl. rewrite lookup_insert. case_decide as E.
    + intros [= <-]. simpl. rewrite Hsnoc. by eexists.
    + intros Hn. destruct (Hlive n r' Hn) as [o Ho]. exists o.
      by apply (deref_app σ).
Qed.

End registry_more.

(** ** More on the matchers *)

Section matchers_more.
Import rule.

Lemma appliedTo_filter σ h posts matches (f : Rule → reddit.Post → bool) :
  (∀ r p, r ∈ heuristic.rules h → p ∈ posts →
     call_Match r p σ = Ret (f r p, σ)) →
  heuristic.appliedTo h posts matches σ
  = Ret (matches ++
           List.filter (λ p, forallb (λ r, f r p) (heuristic.rules h)) posts, σ).
Proof.
  revert matches. induction posts as [|p posts IH]; intros matches H.
  - simpl. by rewrite app_nil_r.
  - cbn [heuristic.appliedTo List.filter]. unfold mbind, M_bind.
    rewrite (postPasses_from_spec _ _ _ (λ r, f r p))
      by (intros; apply H; [done|by left]).
    simpl. destruct (forallb _ _).
    + rewrite IH by (intros; apply H; [done|by right]). by rewrite <- app_assoc.
    + apply IH. intros. apply H; [done|by right].
Qed.

(** X10: a heuristic without rules lets every post pass: the batch is
    appended whole to the matches, and the state is not read. *)
Theorem appliedTo_no_rules (σ : state) (posts matches : list reddit.Post) :
  heuristic.appliedTo {| heuristic.rules := [] |} posts matches σ
  = Ret (matches ++ posts, σ).
Proof.
  rewrite (appliedTo_filter σ _ posts matches (λ _ _, true)).
  - simpl. by rewrite filter_all.
  - by intros r p ?%elem_of_nil.
Qed.

(** X11: applying the rules to a batch made of two parts is applying them
    to the first part and then, on the matches so far, to the second. *)
Theorem appliedTo_app (σ : state) (h : heuristic.Heuristic)
    (posts1 posts2 matches : list reddit.Post) :
  heuristic.appliedTo h (posts1 ++ posts2) matches σ
  = (heuristic.appliedTo h posts1 matches ≫= heuristic.appliedTo h posts2) σ.
Proof.
  revert matches σ. induction posts1 as [|p posts1 IH]; intros matches σ; [done|].
  cbn [app heuristic.appliedTo]. unfold mbind, M_bind in *.
  destruct (heuristic.postPasses_from _ p true σ) as [[[] σ']|v]; [apply IH..|done].
Qed.

Lemma postPasses_from_panic σ pre r rest p b0 v :
  (∀ r', r' ∈ pre → ∃ b, call_Match r' p σ = Ret (b, σ)) →
  call_Match r p σ = Panic v →
  heuristic.postPasses_from (pre ++ r :: rest) p b0 σ = Panic v.
Proof.
  revert b0. induction pre as [|r' pre IH]; intros b0 Hpre Hr.
  - cbn [app heuristic.postPasses_from]. unfold mbind, M_bind. by rewrite Hr.
  - cbn [app heuristic.postPasses_from]. unfold mbind, M_bind.
    destruct (Hpre r') as [b Hb]; [by left|]. rewrite Hb.
    apply IH; [|done]. intros. apply Hpre. by right.
Qed.

(** X12: the rules are all called on a post, also after one of them has
    returned false: a rule that panics on a post makes [appliedTo] panic,
    whatever the rules before it returned. *)
Theorem appliedTo_no_short_circuit (σ : state) (h : heuristic.Heuristic)
    (pre rest : list Rule) (r : Rule) (p : reddit.Post)
    (posts matches : list reddit.Post) (v : panic_value) :
  heuristic.rules h = pre ++ r :: rest →
  (∀ r', r' ∈ pre → ∃ b, call_Match r' p σ = Ret (b, σ)) →
  call_Match r p σ = Panic v →
  heuristic.appliedTo h (p :: posts) matches σ = Panic v.
Proof.
  intros Hh Hpre Hr. cbn [heuristic.appliedTo]. unfold mbind, M_bind.
  by rewrite Hh, (postPasses_from_panic σ pre r rest p true v).
Qed.

Lemma appliedTo_no_short_circuit_witness :
  call_Match (Some 1%nat) samples.P1 samples.two_rules = Ret (false, samples.two_rules) ∧
  heuristic.appliedTo {| heuristic.rules := [Some 1%nat; None] |}
    [samples.P1] [] samples.two_rules = nil_dereference.
Proof.
  split; [reflexivity|].
  apply (appliedTo_no_short_circuit samples.two_rules
           {| heuristic.rules := [Some 1%nat; None] |} [Some 1%nat] [] None
           samples.P1 [] []); [reflexivity| |reflexivity].
  intros r' Hr'. exists false.
  apply elem_of_cons in Hr' as [->|Hr']; [reflexivity|by apply elem_of_nil in Hr'].
Defined.

(** X13: without the assumption that names tell rules apart, the entry of
    a name is the last post of the batch matched by some rule of that name,
    and a name no matching rule bears has no entry. *)
Theorem matchPosts_by_name (σ : state) (rules : list Rule)
    (posts : list reddit.Post) (f : Rule → reddit.Post → bool)
    (nm : Rule → string) :
  (∀ r p, r ∈ rules → p ∈ posts → call_Match r p σ = Ret (f r p, σ)) →
  (∀ r, r ∈ rules → call_Name r σ = Ret (nm r, σ)) →
  ∃ m,
    main.matchPosts rules posts σ = Ret (m, σ) ∧
    ∀ n, m !! n =
      last (List.filter
              (λ p, existsb (λ r, f r p && bool_decide (nm r = n)) rules) posts).
Proof.
  intros Hf Hn.
  destruct (matchPosts_from_spec σ rules posts ∅ f nm Hf Hn) as (m & Hrun & Hm).
  exists m. split; [done|]. intros n. rewrite Hm, lookup_empty.
  by destruct (last _).
Qed.

Lemma matchPosts_by_name_witness :
  ∃ m,
    main.matchPosts [Some 0%nat; Some 1%nat] [samples.P1; samples.P2] samples.same_name
    = Ret (m, samples.same_name) ∧
    m !! "x"%string = Some samples.P2 ∧ m !! "y"%string = None.
Proof.
  destruct (matchPosts_by_name samples.same_name [Some 0%nat; Some 1%nat]
              [samples.P1; samples.P2]
              (λ r _, match r with Some 1%nat => true | _ => false end)
              (λ _, "x"%string)) as (m & Hrun & Hm).
  - intros r p Hr _.
    apply elem_of_cons in Hr as [->|Hr]; [reflexivity|].
    apply elem_of_cons in Hr as [->|Hr]; [reflexivity|by apply elem_of_nil in Hr].
  - intros r Hr.
    apply elem_of_cons in Hr as [->|Hr]; [reflexivity|].
    apply elem_of_cons in Hr as [->|Hr]; [reflexivity|by apply elem_of_nil in Hr].
  - exists m. split; [exact Hrun|]. split; rewrite Hm; reflexivity.
Defined.

(** X14: with one rule the two matchers agree: the entry of the rule's
    name in the result of [matchPosts] is the last post [appliedTo] lets
    pass, and no other name has an entry. *)
Theorem matchPosts_appliedTo_one_rule (σ : state) (r : Rule) (name : string)
    (posts : list reddit.Post) (f : reddit.Post → bool) :
  (∀ p, p ∈ posts → call_Match r p σ = Ret (f p, σ)) →
  call_Name r σ = Ret (name, σ) →
  ∃ m out,
    main.matchPosts [r] posts σ = Ret (m, σ) ∧
    heuristic.appliedTo {| heuristic.rules := [r] |} posts [] σ = Ret (out, σ) ∧
    out = List.filter f posts ∧
    m !! name = last out ∧
    (∀ n, n ≠ name → m !! n = None).
Proof.
  intros Hf Hn.
  destruct (matchPosts_from_spec σ [r] posts ∅ (λ _, f) (λ _, name))
    as (m & Hrun & Hm).
  { intros r' p ->%list_elem_of_singleton Hp. by apply Hf. }
  { by intros r' ->%list_elem_of_singleton. }
  exists m, (List.filter f posts). split_and!; [done| |done| |].
  - rewrite (appliedTo_filter σ _ posts [] (λ _, f)).
    + simpl. f_equal. f_equal. apply List.filter_ext. intros p. apply andb_true_r.
    + intros r' p ->%list_elem_of_singleton Hp. by apply Hf.
  - rewrite Hm, lookup_empty. simpl.
    rewrite (List.filter_ext _ f).
    + by destruct (last _).
    + intros p. rewrite bool_decide_eq_true_2 by done.
      by rewrite andb_true_r, orb_false_r.
  - intros n Hne. rewrite Hm, lookup_empty. simpl.
    rewrite filter_none; [done|]. intros p _.
    rewrite bool_decide_eq_false_2 by done. by rewrite andb_false_r.
Qed.

Lemma matchPosts_appliedTo_one_rule_witness :
  ∃ m out,
    main.matchPosts [Some 1%nat] [samples.P1; samples.P2; samples.P1] samples.two_rules
    = Ret (m, samples.two_rules) ∧
    heuristic.appliedTo {| heuristic.rules := [Some 1%nat] |}
      [samples.P1; samples.P2; samples.P1] [] samples.two_rules
    = Ret (out, samples.two_rules) ∧
    out = [samples.P2] ∧ m !! "R2"%string = Some samples.P2.
Proof.
  destruct (matchPosts_appliedTo_one_rule samples.two_rules (Some 1%nat) "R2"
              [samples.P1; samples.P2; samples.P1]
              (λ p, String.eqb (reddit.ID p) "p2"))
    as (m & out & Hm & Hout & E & Hlast & _).
  - intros p _. reflexivity.
  - reflexivity.
  - exists m, out. split_and!; [exact Hm|exact Hout|by rewrite E|].
    rewrite Hlast, E. reflexivity.
Defined.

(** X15: the rule with the ceiling written into it behaves as
    [RamUnderPrice] with ceiling 100, and so returns false on every
    post. *)
Theorem RamUnder100_Match_false (post : reddit.Post) :
  ramunder100.Match post = ramunderprice.Match {| ramunderprice.Price := 100 |} post ∧
  ramunder100.Match post = Ret false.
Proof.
  assert (ramunder100.Match post
          = ramunderprice.Match {| ramunderprice.Price := 100 |} post) as E
    by reflexivity.
  split; [done|]. rewrite E. apply Match_false.
Qed.

End matchers_more.

(** ** More on the patterns *)

Section patterns_more.
Import regexp ramunderprice.

Lemma many_inv_length c k prev s n :
  many c k prev s = Some n →
  ∃ s1 s2 prev' n',
    s = s1 ++ s2 ∧ Forall (λ x, class_match c x = true) s1 ∧
    k prev' s2 = Some n' ∧ n = (length s1 + n')%nat.
Proof.
  revert prev n. induction s as [|x s IH]; intros prev n H; simpl in H.
  - exists [], [], prev, n. by split_and!.
  - destruct (class_match c x) eqn:Hx.
    + destruct (many c k (Some x) s) as [m|] eqn:Hm.
      * apply IH in Hm as (s1 & s2 & p' & n' & -> & Hs1 & Hk & ->).
        injection H as <-.
        exists (x :: s1), s2, p', n'. split_and!; [done|by constructor|done|done].
      * exists [], (x :: s), prev, n. by split_and!.
    + exists [], (x :: s), prev, n. by split_and!.
Qed.

(** A match of the cost pattern spans the text. *)
Lemma match_cost_length prev s n :
  match_here reCostInTitle prev s = Some n → n = length s ∧ n ≠ 0%nat.
Proof.
  simpl. destruct prev; [done|]. destruct s as [|x s]; [done|].
  destruct (Ascii.eqb x "$"); [|done]. destruct s as [|d s]; [done|].
  destruct (is_digit d); [|done].
  intros H. apply fmap_Some in H as (n1 & H & ->). apply fmap_Some in H as (n2 & H & ->).
  apply many_inv_length in H as (s1 & s2 & ? & ? & -> & _ & H & ->).
  apply many_inv_length in H as (s3 & s4 & ? & ? & -> & _ & H & ->).
  apply many_inv_length in H as (s5 & s6 & ? & ? & -> & _ & H & ->).
  destruct s6; [|done]. injection H as <-. split; [|done].
  simpl. rewrite !length_app. simpl. lia.
Qed.

(** The cost pattern matches nowhere but at the beginning of the text. *)
Lemma search_cost_after x rest pos :
  search reCostInTitle (Some x) rest pos = None.
Proof.
  destruct (search _ _ _ _) eqn:H; [|done]. by apply search_cost in H as [? _].
Qed.

Lemma slice_all (t : list ascii) :
  slice t (0%nat, (0 + length t)%nat) = String.string_of_list_ascii t.
Proof. unfold slice. simpl. by rewrite Nat.sub_0_r, drop_0, firstn_all. Qed.

(** X16: the cost pattern finds nothing in a title, or the title itself:
    never a part of a title and never more than one cost. *)
Theorem FindAllString_cost_whole_title (title : string) :
  FindAllString reCostInTitle title (-1) = [] ∨
  FindAllString reCostInTitle title (-1) = [title].
Proof.
  unfold FindAllString. change (-1 <? 0) with true. cbv iota.
  set (t := String.list_ascii_of_string title).
  replace (length t + 1)%nat with (S (length t)) by lia.
  cbn [allMatches]. change (0 <=? length t)%nat with true. cbv iota.
  unfold doExecute. simpl prev_at. rewrite drop_0.
  destruct (match_here reCostInTitle None t) as [n|] eqn:Hm.
  - right. destruct t as [|x t'] eqn:Et; [by vm_compute in Hm|].
    cbn [search]. rewrite Hm. cbv zeta.
    apply match_cost_length in Hm as [-> _].
    change (0 + length (x :: t') =? 0)%nat with false. cbv iota. simpl negb. cbv iota.
    cbn [length allMatches Nat.add]. rewrite Nat.leb_refl.
    unfold doExecute. cbn [prev_at].
    destruct ((x :: t') !! length t') as [y|] eqn:Hy.
    2:{ apply lookup_ge_None in Hy. simpl in Hy. lia. }
    rewrite search_cost_after. simpl app. simpl fmap.
    f_equal. rewrite <- Et. change (slice t (0%nat, S (length t')))
      with (slice t (0%nat, (0 + length (x :: t'))%nat)).
    rewrite <- Et, slice_all. subst t. apply String.string_of_list_ascii_of_string.
  - left. destruct t; cbn [search]; rewrite Hm; [done|].
    by rewrite search_cost_after.
Qed.

(** A match is found somewhere exactly when the pattern matches at some
    split of the text, the byte before being the last of the first part. *)
Lemma search_is_Some re prev s pos :
  is_Some (search re prev s pos) ↔
  ∃ pre post,
    s = pre ++ post ∧
    is_Some (match_here re (from_option Some prev (last pre)) post).
Proof.
  revert prev pos. induction s as [|x s IH]; intros prev pos; cbn [search].
  - destruct (match_here re prev []) eqn:Hm.
    + split; [|by eauto]. intros _. exists [], []. split; [done|]. simpl. by rewrite Hm.
    + split; [by intros [? ?]|]. intros (pre & post & E & H).
      symmetry in E. apply app_eq_nil in E as [-> ->]. simpl in H.
      rewrite Hm in H. by destruct H.
  - destruct (match_here re prev (x :: s)) eqn:Hm.
    + split; [|by eauto]. intros _. exists [], (x :: s). split; [done|]. simpl. by rewrite Hm.
    + rewrite IH. split.
      * intros (pre & post & -> & H). exists (x :: pre), post. split; [done|].
        rewrite last_cons. by destruct (last pre).
      * intros (pre & post & E & H). destruct pre as [|y pre]; simpl in E.
        -- subst post. simpl in H. rewrite Hm in H. by destruct H.
        -- injection E as -> ->. exists pre, post. split; [done|].
           rewrite last_cons in H. by destruct (last pre).
Qed.

Lemma fold_letters x :
  (class_match (Fold "R") x = true ↔ x = "R"%char ∨ x = "r"%char) ∧
  (class_match (Fold "A") x = true ↔ x = "A"%char ∨ x = "a"%char) ∧
  (class_match (Fold "M") x = true ↔ x = "M"%char ∨ x = "m"%char) ∧
  (class_match (Fold "R") x = true → is_word x = true) ∧
  (class_match (Fold "M") x = true → is_word x = true).
Proof.
  destruct x as [[] [] [] [] [] [] [] []]; vm_compute; split_and!; try done;
    intros H; first [by left | by right | by destruct H].
Qed.

Lemma match_ram_is_Some prev s :
  is_Some (match_here reRamInTitle prev s) ↔
  ∃ x y z post,
    s = x :: y :: z :: post ∧
    (x = "R" ∨ x = "r")%char ∧ (y = "A" ∨ y = "a")%char ∧ (z = "M" ∨ z = "m")%char ∧
    is_word_opt prev = false ∧ is_word_opt (head post) = false.
Proof.
  split.
  - cbn [match_here reRamInTitle].
    destruct (xorb (is_word_opt prev) (is_word_opt (head s))) eqn:Hb1;
      [|by intros [? ?]].
    destruct s as [|x s]; [by intros [? ?]|].
    destruct (class_match (Fold "R") x) eqn:Hx; [|by intros [? ?]].
    destruct s as [|y s]; [by intros [? ?]|].
    destruct (class_match (Fold "A") y) eqn:Hy; [|by intros [? ?]].
    destruct s as [|z post]; [by intros [? ?]|].
    destruct (class_match (Fold "M") z) eqn:Hz; [|by intros [? ?]].
    destruct (xorb (is_word_opt (Some z)) (is_word_opt (head post))) eqn:Hb2;
      [|by intros [? ?]].
      intros _. exists x, y, z, post.
      pose proof (fold_letters x) as (Hx' & _ & _ & Hwx & _).
      pose proof (fold_letters y) as (_ & Hy' & _).
      pose proof (fold_letters z) as (_ & _ & Hz' & _ & Hwz).
      simpl in Hb1, Hb2. rewrite (Hwx Hx) in Hb1. rewrite (Hwz Hz) in Hb2.
      split_and!; [done|by apply Hx'|by apply Hy'|by apply Hz'| |].
      * by destruct (is_word_opt prev).
      * by destruct (is_word_opt (head post)).
  - intros (x & y & z & post & -> & Hx & Hy & Hz & Hp & Hq).
    pose proof (fold_letters x) as (Hx' & _ & _ & Hwx & _).
    pose proof (fold_letters y) as (_ & Hy' & _).
    pose proof (fold_letters z) as (_ & _ & Hz' & _ & Hwz).
    apply Hx' in Hx. apply Hy' in Hy. apply Hz' in Hz.
    cbn [match_here reRamInTitle head]. simpl is_word_opt at 2.
    rewrite Hp, (Hwx Hx), Hx, Hy, Hz. simpl.
    rewrite (Hwz Hz), Hq. by eexists.
Qed.

(** X17: the word RAM is found in a title exactly when the title holds
    three bytes that spell RAM in either case of each letter, with no
    word byte (letter, digit, underscore) right before or right after. *)
Theorem FindStringIndex_ram_whole_word (title : string) :
  FindStringIndex reRamInTitle title ≠ None ↔
  ∃ pre x y z post,
    String.list_ascii_of_string title = pre ++ x :: y :: z :: post ∧
    (x = "R" ∨ x = "r")%char ∧ (y = "A" ∨ y = "a")%char ∧ (z = "M" ∨ z = "m")%char ∧
    is_word_opt (last pre) = false ∧ is_word_opt (head post) = false.
Proof.
  unfold FindStringIndex, doExecute. simpl prev_at. rewrite drop_0.
  rewrite not_eq_None_Some, search_is_Some. split.
  - intros (pre & s & E & H). apply match_ram_is_Some in H
      as (x & y & z & post & -> & Hx & Hy & Hz & Hp & Hq).
    exists pre, x, y, z, post. split_and!; try done. by destruct (last pre).
  - intros (pre & x & y & z & post & E & Hx & Hy & Hz & Hp & Hq).
    exists pre, (x :: y :: z :: post). split; [done|].
    apply match_ram_is_Some. exists x, y, z, post.
    split_and!; try done. by destruct (last pre).
Qed.

Lemma match_digits_all prev s n :
  match_here reDigitsAtEnd prev s = Some n →
  s ≠ [] ∧ Forall (λ x, is_digit x = true) s.
Proof.
  simpl. destruct s as [|x s]; [done|]. destruct (is_digit x) eqn:Hx; [|done].
  intros H. apply fmap_Some in H as (m & H & _).
  apply many_inv_length in H as (s1 & s2 & ? & ? & -> & Hs1 & H & _).
  destruct s2; [|done]. rewrite app_nil_r. split; [done|]. by constructor.
Qed.

Lemma many_digits_end prev l :
  Forall (λ x, is_digit x = true) l →
  many Digit (match_here [EndText]) prev l = Some (length l).
Proof.
  intros H. revert prev. induction H as [|x l Hx _ IH]; intros prev; [done|].
  cbn [many class_match]. by rewrite Hx, IH.
Qed.

Lemma match_digits_run prev ds :
  ds ≠ [] → Forall (λ x, is_digit x = true) ds →
  match_here reDigitsAtEnd prev ds = Some (length ds).
Proof.
  intros Hne H. destruct H as [|x l Hx Hl]; [done|].
  change (match_here reDigitsAtEnd prev (x :: l))
    with (if is_digit x then S <$> many Digit (match_here [EndText]) (Some x) l
          else None).
  rewrite Hx. by rewrite (many_digits_end (Some x) l Hl).
Qed.

Lemma search_digits_none prev s pos :
  (∀ x, last s = Some x → is_digit x = false) →
  search reDigitsAtEnd prev s pos = None.
Proof.
  revert prev pos. induction s as [|x s IH]; intros prev pos Hlast.
  - done.
  - cbn [search]. destruct (match_here reDigitsAtEnd prev (x :: s)) eqn:Hm.
    + apply match_digits_all in Hm as [_ Hall].
      destruct (last (x :: s)) as [y|] eqn:Hy; [|by rewrite last_None in Hy].
      pose proof (Hlast y eq_refl) as Hd.
      apply last_Some_elem_of in Hy. rewrite Forall_forall in Hall.
      apply Hall in Hy. congruence.
    + apply IH. intros y Hy. apply Hlast. rewrite last_cons. by rewrite Hy.
Qed.

Lemma search_digits_end prev pre ds pos :
  (∀ x, last pre = Some x → is_digit x = false) →
  ds ≠ [] → Forall (λ x, is_digit x = true) ds →
  search reDigitsAtEnd prev (pre ++ ds) pos
  = Some ((pos + length pre)%nat, (pos + length pre + length ds)%nat).
Proof.
  intros Hlast Hne Hds. revert prev pos.
  induction pre as [|x pre IH]; intros prev pos.
  - simpl app. destruct ds as [|d ds']; [done|]. cbn [search].
    rewrite (match_digits_run prev (d :: ds')) by done.
    simpl length. do 2 f_equal; lia.
  - cbn [app search length].
    destruct (match_here reDigitsAtEnd prev (x :: pre ++ ds)) eqn:Hm.
    + apply match_digits_all in Hm as [_ Hall].
      destruct (last (x :: pre)) as [y|] eqn:Hy; [|by rewrite last_None in Hy].
      pose proof (Hlast y eq_refl) as Hd.
      apply last_Some_elem_of in Hy. rewrite Forall_forall in Hall.
      assert (y ∈ x :: pre ++ ds) as Hin.
      { change (x :: pre ++ ds) with ((x :: pre) ++ ds). apply elem_of_app. by left. }
      apply Hall in Hin. congruence.
    + rewrite IH.
      * do 2 f_equal; lia.
      * intros y Hy. apply Hlast. rewrite last_cons. by rewrite Hy.
Qed.

Lemma FindAllString_digits_none (c : string) :
  (∀ x, last (String.list_ascii_of_string c) = Some x → is_digit x = false) →
  FindAllString reDigitsAtEnd c (-1) = [].
Proof.
  intros Hlast. unfold FindAllString. change (-1 <? 0) with true. cbv iota.
  set (t := String.list_ascii_of_string c) in *.
  replace (length t + 1)%nat with (S (length t)) by lia.
  cbn [allMatches]. change (0 <=? length t)%nat with true. cbv iota.
  unfold doExecute. rewrite drop_0. by rewrite search_digits_none.
Qed.

Lemma FindAllString_digits_last (pre ds : list ascii) :
  (∀ x, last pre = Some x → is_digit x = false) →
  ds ≠ [] → Forall (λ x, is_digit x = true) ds →
  FindAllString reDigitsAtEnd (String.string_of_list_ascii (pre ++ ds)) (-1)
  = [String.string_of_list_ascii ds].
Proof.
  intros Hlast Hne Hds. unfold FindAllString. change (-1 <? 0) with true. cbv iota.
  rewrite String.list_ascii_of_string_of_list_ascii.
  set (t := pre ++ ds).
  assert (length t = (length pre + length ds)%nat) as Hlen
    by (subst t; by rewrite length_app).
  assert (length ds ≠ 0%nat) as Hds0 by (by destruct ds).
  replace (length t + 1)%nat with (S (S (length t - 1))) by lia.
  cbn [allMatches]. change (0 <=? length t)%nat with true. cbv iota.
  unfold doExecute at 1. simpl prev_at. rewrite drop_0. subst t.
  rewrite (search_digits_end None pre ds 0) by done. cbv zeta.
  rewrite Nat.add_0_l.
  destruct (Nat.eqb_spec (length pre + length ds) 0) as [E|_]; [lia|].
  simpl negb. cbv iota.
  rewrite <- Hlen, Nat.leb_refl. unfold doExecute.
  rewrite drop_all. destruct (length (pre ++ ds)) as [|p] eqn:Hp; [lia|].
  cbn [prev_at search]. 
  assert (∀ q, match_here reDigitsAtEnd q [] = None) as Hnil by done.
  rewrite Hnil. simpl app. simpl fmap. f_equal.
  unfold slice. simpl fst. simpl snd.
  replace (S p - length pre)%nat with (length ds) by lia.
  rewrite drop_app_length. by rewrite firstn_all.
Qed.

(** X18: a cost whose last byte is no digit (a cost ending in a dot, which
    the cost pattern accepts) leaves the digit pattern without a match, and
    taking its first match panics: index out of range. *)
Theorem matchCosts_no_trailing_digit (r : RamUnderPrice) (c : string) :
  (∀ x, last (String.list_ascii_of_string c) = Some x → is_digit x = false) →
  matchCosts r [c] = Panic (RuntimeError "index out of range").
Proof.
  intros Hlast. rewrite matchCosts_one.
  by rewrite (FindAllString_digits_none c Hlast).
Qed.

Lemma matchCosts_no_trailing_digit_witness :
  FindAllString reCostInTitle "$5." (-1) = ["$5."%string] ∧
  matchCosts {| Price := 100 |} (FindAllString reCostInTitle "$5." (-1))
  = Panic (RuntimeError "index out of range").
Proof.
  split; [reflexivity|].
  apply (matchCosts_no_trailing_digit {| Price := 100 |} "$5.").
  intros x [= <-]. reflexivity.
Defined.

Lemma digit_value (x : ascii) :
  is_digit x = true → 0 ≤ Z.of_nat (nat_of_ascii x) - 48 ≤ 9.
Proof.
  destruct x as [[] [] [] [] [] [] [] []]; vm_compute; intros H;
    first [discriminate H | split; discriminate].
Qed.

Lemma digit_not_sign {A} (x : ascii) (l : list ascii) (a b : list ascii → A) (d : A) :
  is_digit x = true →
  match x :: l with
  | "-"%char :: t => a t
  | "+"%char :: t => b t
  | _ => d
  end = d.
Proof.
  destruct x as [[] [] [] [] [] [] [] []]; vm_compute; intros H;
    first [discriminate H | reflexivity].
Qed.

Lemma digits_nonneg acc ds v :
  0 ≤ acc → strconv.digits acc ds = Some v → 0 ≤ v.
Proof.
  revert acc. induction ds as [|x ds IH]; intros acc Hacc; simpl.
  - by intros [= <-].
  - destruct (is_digit x) eqn:Hx; [|done]. apply IH.
    pose proof (digit_value x Hx). lia.
Qed.

Lemma Atoi_digits (ds : list ascii) (v : Z) :
  ds ≠ [] → Forall (λ x, is_digit x = true) ds →
  strconv.digits 0 ds = Some v → v ≤ strconv.maxInt →
  strconv.Atoi (String.string_of_list_ascii ds) = (v, None).
Proof.
  intros Hne Hds Hv Hmax. unfold strconv.Atoi.
  rewrite String.list_ascii_of_string_of_list_ascii.
  destruct Hds as [|x l Hx Hl]; [done|].
  rewrite (digit_not_sign x l _ _ (false, x :: l) Hx). rewrite Hv.
  pose proof (digits_nonneg 0 (x :: l) v (Z.le_refl 0) Hv) as Hpos.
  destruct (Z.gtb_spec v strconv.maxInt) as [?|_]; [lia|].
  destruct (Z.ltb_spec v strconv.minInt) as [Hlt|_]; [|done].
  exfalso. revert Hlt. unfold strconv.minInt, strconv.intSize. lia.
Qed.

(** X19: the number compared with the ceiling is the last run of digits
    of the cost: for a cost that ends in the digits [ds], with no digit
    right before them, [matchCosts] returns whether the value of [ds] is at
    most the ceiling; after a dot this is the cents, not the dollars. *)
Theorem matchCosts_last_digits (r : RamUnderPrice) (pre ds : list ascii) (v : Z) :
  (∀ x, last pre = Some x → is_digit x = false) →
  ds ≠ [] → Forall (λ x, is_digit x = true) ds →
  strconv.digits 0 ds = Some v → v ≤ strconv.maxInt →
  matchCosts r [String.string_of_list_ascii (pre ++ ds)]
  = Ret (bool_decide (v ≤ Price r)).
Proof.
  intros Hlast Hne Hds Hv Hmax. rewrite matchCosts_one.
  rewrite (FindAllString_digits_last pre ds Hlast Hne Hds).
  change ([String.string_of_list_ascii ds] !! 0%nat)
    with (Some (String.string_of_list_ascii ds)).
  cbv beta iota. rewrite (Atoi_digits ds v Hne Hds Hv Hmax).
  destruct (Z.gtb_spec v (Price r)); symmetry; f_equal.
  - apply bool_decide_eq_false. lia.
  - apply bool_decide_eq_true. lia.
Qed.

Lemma matchCosts_last_digits_witness :
  matchCosts {| Price := 100 |} ["$99"%string] = Ret true ∧
  matchCosts {| Price := 100 |} ["$150.99"%string] = Ret true ∧
  matchCosts {| Price := 100 |} ["$99.150"%string] = Ret false.
Proof.
  split_and!.
  - apply (matchCosts_last_digits {| Price := 100 |}
             ["$"%char] ["9"; "9"]%char 99);
      [by intros x [= <-] | done | by repeat constructor | reflexivity | done].
  - apply (matchCosts_last_digits {| Price := 100 |}
             ["$"; "1"; "5"; "0"; "."]%char ["9"; "9"]%char 99);
      [by intros x [= <-] | done | by repeat constructor | reflexivity | done].
  - apply (matchCosts_last_digits {| Price := 100 |}
             ["$"; "9"; "9"; "."]%char ["1"; "5"; "0"]%char 150);
      [by intros x [= <-] | done | by repeat constructor | reflexivity | done].
Defined.

End patterns_more.

(** ** More on [RegisterConfigs] *)

Section register_configs.
Import ramunderprice.

Lemma decode_members_skip field (ms : list (string * json.value)) st :
  Forall (λ kv, json.key_matches field kv.1 = false ∨ kv.2 = json.Null) ms →
  foldl (json.decode_member field) st ms = st.
Proof.
  intros H. revert st. induction H as [|[k v] ms Hkv _ IH]; intros [cur sv]; [done|].
  cbn [foldl]. rewrite <- (IH (cur, sv)) at 2. f_equal.
  unfold json.decode_member. simpl in Hkv.
  destruct (json.key_matches field k); [|done].
  by destruct Hkv as [?| ->].
Qed.

(** X21: a payload that is null, or an object in which every member
    named price (in any letter case) is null, leaves the rule as it is and
    gives no error: the ceiling is kept. *)
Theorem RegisterConfigs_no_price (r : RamUnderPrice)
    (members : list (string * json.value)) :
  RegisterConfigs r (json.Text json.Null) = (r, None) ∧
  (Forall (λ kv, json.key_matches "price" kv.1 = false ∨ kv.2 = json.Null) members →
   RegisterConfigs r (json.Text (json.Object members)) = (r, None)).
Proof.
  destruct r as [price]. split; [done|]. intros H.
  unfold RegisterConfigs, json.Unmarshal. cbn [Price].
  by rewrite decode_members_skip.
Qed.

Lemma RegisterConfigs_no_price_witness :
  RegisterConfigs {| Price := 100 |}
    (json.Text (json.Object [("cost"%string, json.Int 5); ("Price"%string, json.Null)]))
  = ({| Price := 100 |}, None).
Proof.
  apply (proj2 (RegisterConfigs_no_price {| Price := 100 |}
                  [("cost"%string, json.Int 5); ("Price"%string, json.Null)])).
  constructor; [left; reflexivity|]. constructor; [right; reflexivity|]. constructor.
Defined.

Lemma decode_members_price field (ms : list (string * json.value)) :
  ∃ o : option Z, ∀ cur sv,
    (foldl (json.decode_member field) (cur, sv) ms).1 = default cur o.
Proof.
  induction ms as [|[k v] ms [o IH]].
  - by exists None.
  - assert (∃ o1 : option Z, ∀ cur sv,
      (json.decode_member field (cur, sv) (k, v)).1 = default cur o1) as [o1 H1].
    { unfold json.decode_member. destruct (json.key_matches field k).
      - destruct v as [| |z| | | |]; try by exists None.
        destruct (_ && _); [by exists (Some z)|by exists None].
      - by exists None. }
    exists (match o with Some z => Some z | None => o1 end). intros cur sv.
    cbn [foldl]. specialize (H1 cur sv).
    destruct (json.decode_member field (cur, sv) (k, v)) as [cur1 sv1].
    rewrite IH. simpl in H1. subst cur1. by destruct o.
Qed.

Lemma decode_members_error field (ms : list (string * json.value)) cur cur' sv :
  (foldl (json.decode_member field) (cur, sv) ms).2
  = (foldl (json.decode_member field) (cur', sv) ms).2.
Proof.
  revert cur cur' sv. induction ms as [|[k v] ms IH]; intros cur cur' sv; [done|].
  cbn [foldl].
  assert (∃ c c' sv1, json.decode_member field (cur, sv) (k, v) = (c, sv1) ∧
            json.decode_member field (cur', sv) (k, v) = (c', sv1))
    as (c & c' & sv1 & -> & ->); [|apply IH].
  unfold json.decode_member. destruct (json.key_matches field k); [|by eauto].
  destruct v as [| |z| | | |]; try by eauto.
  destruct (_ && _); by eauto.
Qed.

(** X22: [RegisterConfigs] is idempotent: applying a payload to the rule
    it has just been applied to changes nothing more and returns the same
    error. *)
Theorem RegisterConfigs_idempotent (r : RamUnderPrice) (d : json.data) :
  RegisterConfigs (RegisterConfigs r d).1 d = RegisterConfigs r d.
Proof.
  destruct r as [price]. unfold RegisterConfigs. cbn [Price].
  destruct d as [v|]; [|done].
  destruct v as [| | | | | |ms]; try done.
  unfold json.Unmarshal.
  destruct (decode_members_price "price" ms) as [o Ho].
  pose proof (Ho price None) as H1.
  destruct (foldl (json.decode_member "price") (price, None) ms) as [p1 e1] eqn:E1.
  cbn [fst Price]. pose proof (Ho p1 None) as H2.
  pose proof (decode_members_error "price" ms p1 price None) as He.
  destruct (foldl (json.decode_member "price") (p1, None) ms) as [p2 e2] eqn:E2.
  rewrite E1 in He. simpl in *. subst. f_equal. by destruct o.
Qed.

End register_configs.
